(** * sealos-state-metrics: the configurable collector and the windowed aggregators

    A shallow embedding of
    - [pkg/collector/dynamic]: the path extractor ([helpers.go]) and the
      configuration-driven collector (descriptor construction, the resource
      cache with its three event handlers, the six metric strategies and the
      two-pass [collect]);
    - [pkg/collector/pod]: [PodAggregator];
    - [pkg/collector/event]: [EventAggregator].

    Conventions.
    - A Go [map[string]T] is a [gmap string T]. Go ranges over a map in an
      unspecified order; where only the order of the output depends on it the
      model ranges in [map_to_list] order and the statements speak of
      membership and length, and where the result itself depends on it
      ([removeOldest]) the enumeration is an explicit argument.
    - [float64] is Rocq's primitive binary64 [float].
    - [time.Time] is a point on an integer nanosecond time line ([Z]),
      [time.Duration] a signed 64-bit count of nanoseconds with wrap-around.
      [time.Now()] is an explicit argument [now].
    - A call that may panic returns an [outcome].
    - [sync.RWMutex]: every handler body is one critical section, so a
      handler is one atomic transition of the guarded state. Debug logging in
      the handlers is left out; the warning of [initMetrics] is kept. *)

From Stdlib Require Import ZArith Floats Ascii String List Lia.
From stdpp Require Import gmap strings list fin_maps sorting.

Local Open Scope string_scope.
Local Open Scope Z_scope.
Local Open Scope list_scope.

#[local] Set Warnings "-register-all".

(** ** Go preliminaries *)

(** The result of a call that either returns or panics. *)
Inductive outcome (A : Type) : Type :=
| Ret (a : A)
| Panic (msg : string).
Arguments Ret {A} a.
Arguments Panic {A} msg.

#[global] Instance outcome_ret : MRet outcome := fun A a => Ret a.
#[global] Instance outcome_bind : MBind outcome := fun A B f m =>
  match m with
  | Ret a => f a
  | Panic msg => Panic msg
  end.

(** Runs [f] over a list from left to right, stopping at the first panic. *)
Fixpoint forM {A B : Type} (f : A -> outcome (list B)) (l : list A) : outcome (list B) :=
  match l with
  | [] => Ret []
  | x :: rest =>
      match f x with
      | Ret ys =>
          match forM f rest with
          | Ret zs => Ret (ys ++ zs)
          | Panic msg => Panic msg
          end
      | Panic msg => Panic msg
      end
  end.

(** Two's complement wrap-around of a 64-bit signed integer. *)
Definition wrap64 (z : Z) : Z := (z + 2 ^ 63) mod 2 ^ 64 - 2 ^ 63.

(** [float64(v)] for an integer [v]: the nearest binary64, ties to even. *)
Definition float64_of_Z (z : Z) : float :=
  SF2Prim (binary_normalize 53 1024 z 0 false).

(** The dynamic values ([any]) that the package inspects. The kinds are those
    that [toFloat64] tells apart, together with [nil], maps and slices.
    [float32] carries its value widened to binary64 (the widening is exact).
    The content of an [unstructured.Unstructured] decoded from JSON holds
    only [ANil], [ABool], [AString], [AFloat64], [AInt64], [AMap] and
    [ASlice]. *)
Inductive any : Type :=
| ANil
| ABool (b : bool)
| AString (s : string)
| AFloat64 (f : float)
| AFloat32 (f : float)
| AInt (z : Z)
| AInt32 (z : Z)
| AInt64 (z : Z)
| AUint (z : Z)
| AUint32 (z : Z)
| AUint64 (z : Z)
| AMap (m : gmap string any)
| ASlice (l : list any).

(** [unstructured.Unstructured]: [Object map[string]interface{}]. *)
Record Unstructured : Type := { Object : gmap string any }.

(** [strings.Split(s, sep)] for a one-byte separator. *)
Fixpoint Split (sep : ascii) (s : string) : list string :=
  match s with
  | EmptyString => [EmptyString]
  | String c rest =>
      if Ascii.eqb c sep then EmptyString :: Split sep rest
      else match Split sep rest with
           | x :: xs => String c x :: xs
           | [] => [String c EmptyString]
           end
  end.

(** *** [strconv.ParseFloat]

    The function belongs to Go's library and is a parameter of the
    development. Its result [(f, err)] is one of: [err == nil] and [f] the
    parsed number; [err] is [ErrSyntax] and [f] is [0]; [err] is [ErrRange]
    and [f] is [+Inf] or [-Inf]. *)
Inductive ParseFloatResult : Type :=
| Parsed (f : float)
| ErrSyntax
| ErrRange (negative : bool).

Definition ParseFloat_value (r : ParseFloatResult) : float :=
  match r with
  | Parsed f => f
  | ErrSyntax => 0%float
  | ErrRange negative => if negative then neg_infinity else infinity
  end.

Definition ParseFloat_failed (r : ParseFloatResult) : bool :=
  match r with
  | Parsed _ => false
  | _ => true
  end.

Class Strconv : Type := ParseFloat : string -> ParseFloatResult.

(** *** [k8s.io/apimachinery]: nested field access *)

Inductive error : Type :=
| NoError
| AccessorError.

Definition failed (e : error) : bool :=
  match e with
  | NoError => false
  | AccessorError => true
  end.

Module unstructured.

(** The loop of [NestedFieldNoCopy], started at [val]. *)
Fixpoint walk (val : any) (fields : list string) : any * bool * error :=
  match fields with
  | [] => (val, true, NoError)
  | field :: rest =>
      match val with
      | ANil => (ANil, false, NoError)
      | AMap m =>
          match m !! field with
          | Some v => walk v rest
          | None => (ANil, false, NoError)
          end
      | _ => (ANil, false, AccessorError)
      end
  end.

Definition NestedFieldNoCopy (obj : gmap string any) (fields : list string)
  : any * bool * error :=
  walk (AMap obj) fields.

Definition NestedString (obj : gmap string any) (fields : list string)
  : string * bool * error :=
  let '(val, found, err) := NestedFieldNoCopy obj fields in
  if negb found || failed err then ("", found, err)
  else match val with
       | AString s => (s, true, NoError)
       | _ => ("", false, AccessorError)
       end.

(** [runtime.DeepCopyJSONValue] copies maps and slices recursively, returns
    [string], [int64], [bool], [float64] and [nil] as they are and panics
    on every other kind. The copy is equal to the original, so the model
    returns the value itself where the copy succeeds. *)
Fixpoint jsonCopyable (x : any) : bool :=
  match x with
  | AMap m => map_fold (fun _ v acc => jsonCopyable v && acc) true m
  | ASlice l => forallb jsonCopyable l
  | AString _ | AInt64 _ | ABool _ | AFloat64 _ | ANil => true
  | _ => false
  end.

Definition DeepCopyJSONValue (x : any) : outcome any :=
  if jsonCopyable x then Ret x else Panic "cannot deep copy".

(** A [nil] map or slice is [None]. *)
Definition NestedMap (obj : gmap string any) (fields : list string)
  : outcome (option (gmap string any) * bool * error) :=
  let '(val, found, err) := NestedFieldNoCopy obj fields in
  if negb found || failed err then Ret (None, found, err)
  else match val with
       | AMap m =>
           match DeepCopyJSONValue (AMap m) with
           | Ret _ => Ret (Some m, true, NoError)
           | Panic msg => Panic msg
           end
       | _ => Ret (None, false, AccessorError)
       end.

Definition NestedSlice (obj : gmap string any) (fields : list string)
  : outcome (option (list any) * bool * error) :=
  let '(val, found, err) := NestedFieldNoCopy obj fields in
  if negb found || failed err then Ret (None, found, err)
  else match val with
       | ASlice l =>
           match DeepCopyJSONValue (ASlice l) with
           | Ret _ => Ret (Some l, true, NoError)
           | Panic msg => Panic msg
           end
       | _ => Ret (None, false, AccessorError)
       end.

Definition getNestedString (obj : gmap string any) (fields : list string) : string :=
  let '(val, found, err) := NestedString obj fields in
  if negb found || failed err then "" else val.

Definition GetNamespace (u : Unstructured) : string :=
  getNestedString (Object u) ["metadata"; "namespace"].

Definition GetName (u : Unstructured) : string :=
  getNestedString (Object u) ["metadata"; "name"].

End unstructured.

(** ** helpers.go *)

Definition extractFieldString (obj : Unstructured) (path : string) : string :=
  if decide (path = "") then ""
  else
    let parts := Split "." path in
    let '(value, _, _) := unstructured.NestedString (Object obj) parts in
    value.

Section ToFloat.
Context {strconv : Strconv}.

Definition toFloat64 (value : any) : float :=
  match value with
  | AFloat64 v => v
  | AFloat32 v => v
  | AInt v => float64_of_Z v
  | AInt32 v => float64_of_Z v
  | AInt64 v => float64_of_Z v
  | AUint v => float64_of_Z v
  | AUint32 v => float64_of_Z v
  | AUint64 v => float64_of_Z v
  | ABool v => if v then 1%float else 0%float
  | AString v => ParseFloat_value (ParseFloat v)
  | _ => 0%float
  end.

Definition extractFieldFloat (obj : Unstructured) (path : string) : float :=
  if decide (path = "") then 0%float
  else
    let parts := Split "." path in
    let '(value, found, err) := unstructured.NestedFieldNoCopy (Object obj) parts in
    if failed err || negb found then 0%float
    else toFloat64 value.

End ToFloat.

Definition extractFieldMap (obj : Unstructured) (path : string)
  : outcome (option (gmap string any)) :=
  if decide (path = "") then Ret None
  else
    let parts := Split "." path in
    match unstructured.NestedMap (Object obj) parts with
    | Ret (value, found, err) =>
        if failed err || negb found then Ret None else Ret value
    | Panic msg => Panic msg
    end.

Definition extractFieldSlice (obj : Unstructured) (path : string)
  : outcome (option (list any)) :=
  if decide (path = "") then Ret None
  else
    let parts := Split "." path in
    match unstructured.NestedSlice (Object obj) parts with
    | Ret (value, found, err) =>
        if failed err || negb found then Ret None else Ret value
    | Panic msg => Panic msg
    end.

(** *** [sanitizeName]

    [strings.Map] ranges over the runes of its argument. A rune is decoded as
    Go's [range] over a string does: a well-formed UTF-8 sequence is one
    rune, and a byte that starts no well-formed sequence is the rune
    [RuneError] of width one. *)

Definition code (c : ascii) : Z := Z.of_N (N_of_ascii c).

Definition between (lo hi : Z) (c : ascii) : bool :=
  (lo <=? code c) && (code c <=? hi).

Definition RuneError : Z := 0xFFFD.

(** Size of the sequence announced by a leading byte and the range accepted
    for its second byte ([utf8.first] and [utf8.acceptRanges]). *)
Definition leading (c : ascii) : option (nat * Z * Z) :=
  if between 0xC2 0xDF c then Some (2%nat, 0x80, 0xBF)
  else if code c =? 0xE0 then Some (3%nat, 0xA0, 0xBF)
  else if between 0xE1 0xEC c || between 0xEE 0xEF c then Some (3%nat, 0x80, 0xBF)
  else if code c =? 0xED then Some (3%nat, 0x80, 0x9F)
  else if code c =? 0xF0 then Some (4%nat, 0x90, 0xBF)
  else if between 0xF1 0xF3 c then Some (4%nat, 0x80, 0xBF)
  else if code c =? 0xF4 then Some (4%nat, 0x80, 0x8F)
  else None.

Definition low6 (c : ascii) : Z := Z.land (code c) 0x3F.

(** The rune at the head of [String c rest] and its width in bytes. *)
Definition decodeRune (c : ascii) (rest : string) : Z * nat :=
  if code c <? 0x80 then (code c, 1%nat)
  else
    match leading c with
    | None => (RuneError, 1%nat)
    | Some (sz, lo, hi) =>
        match rest with
        | String b1 r1 =>
            if negb (between lo hi b1) then (RuneError, 1%nat)
            else if (sz =? 2)%nat then
              (Z.lor (Z.shiftl (Z.land (code c) 0x1F) 6) (low6 b1), 2%nat)
            else
              match r1 with
              | String b2 r2 =>
                  if negb (between 0x80 0xBF b2) then (RuneError, 1%nat)
                  else if (sz =? 3)%nat then
                    (Z.lor (Z.shiftl (Z.land (code c) 0x0F) 12)
                       (Z.lor (Z.shiftl (low6 b1) 6) (low6 b2)), 3%nat)
                  else
                    match r2 with
                    | String b3 _ =>
                        if negb (between 0x80 0xBF b3) then (RuneError, 1%nat)
                        else
                          (Z.lor (Z.shiftl (Z.land (code c) 0x07) 18)
                             (Z.lor (Z.shiftl (low6 b1) 12)
                                (Z.lor (Z.shiftl (low6 b2) 6) (low6 b3))), 4%nat)
                    | EmptyString => (RuneError, 1%nat)
                    end
              | EmptyString => (RuneError, 1%nat)
              end
        | EmptyString => (RuneError, 1%nat)
        end
    end.

(** [strings.Map] for a mapping whose results are one-byte runes. [skip]
    counts the bytes left of the rune that was just mapped. *)
Fixpoint MapFrom (mapping : Z -> ascii) (skip : nat) (s : string) : string :=
  match s with
  | EmptyString => EmptyString
  | String c rest =>
      match skip with
      | S k => MapFrom mapping k rest
      | O =>
          let '(r, width) := decodeRune c rest in
          String (mapping r) (MapFrom mapping (Nat.pred width) rest)
      end
  end.

Definition Map (mapping : Z -> ascii) (s : string) : string := MapFrom mapping 0 s.

(** [strings.ToLower] on a string of one-byte runes. *)
Definition lowerByte (c : ascii) : ascii :=
  if between 65 90 c then ascii_of_N (N_of_ascii c + 32) else c.

Fixpoint ToLower (s : string) : string :=
  match s with
  | EmptyString => EmptyString
  | String c rest => String (lowerByte c) (ToLower rest)
  end.

Definition sanitizeName (name : string) : string :=
  let result :=
    Map (fun r =>
           if ((97 <=? r) && (r <=? 122)) || ((65 <=? r) && (r <=? 90))
              || ((48 <=? r) && (r <=? 57)) || (r =? 95)
           then ascii_of_N (Z.to_N r)
           else "_"%char) name in
  ToLower result.

(** [sort.Strings] orders strings byte-wise. *)
Definition string_le (a b : string) : Prop := String.leb a b = true.

#[global] Instance string_le_dec : RelDecision string_le.
Proof. intros a b. unfold string_le. apply _. Defined.

Definition sort_Strings (keys : list string) : list string :=
  merge_sort string_le keys.

Definition getSortedKeys (m : gmap string string) : list string :=
  let keys := (map_to_list m).*1 in
  sort_Strings keys.

Definition getSortedValues (m : gmap string string) : list string :=
  let keys := getSortedKeys m in
  map (fun k => default "" (m !! k)) keys.

(** [strings.EqualFold] compares under Unicode simple case folding. The model
    folds the letters A-Z byte-wise; it agrees with Go whenever one argument
    is made of ASCII letters other than k and s (the two with a fold partner
    outside ASCII), which is the case of the only call, against ["true"]. *)
Definition EqualFold (s t : string) : bool := String.eqb (ToLower s) (ToLower t).

(** ** The configuration (config.go) *)

Module ConditionConfig.
(** Modelled from the spec: the declaration of [ConditionConfig], with the
    three field names that [collectConditionsMetric] reads. *)
Record t : Type := {
  TypeField : string;
  StatusField : string;
  ReasonField : string
}.
End ConditionConfig.

Module MetricConfig.
(** Modelled from the spec: the declaration of [MetricConfig] (one
    declarative metric definition: type, name, help and the type-specific
    fields), with the fields that the collector reads. *)
Record t : Type := {
  Type_ : string;
  Name : string;
  Help : string;
  Path : string;
  ValuePath : string;
  KeyLabel : string;
  ValueLabel : string;
  Labels : gmap string string;
  Condition : option ConditionConfig.t
}.
End MetricConfig.

Module CRDConfig.
(** Modelled from the spec: the declaration of [CRDConfig], with the fields
    that the collector reads (the name, the map from common label name to
    field path and the ordered list of metric definitions). *)
Record t : Type := {
  Name : string;
  CommonLabels : gmap string string;
  Metrics : list MetricConfig.t
}.
End CRDConfig.

(** ** Prometheus and logrus, as far as the collector uses them *)

Module prometheus.

(** [prometheus.Desc]: the arguments of [NewDesc]. *)
Record Desc : Type := {
  fqName : string;
  help : string;
  variableLabels : list string
}.

Definition NewDesc (fqName help : string) (variableLabels : list string) : Desc :=
  {| fqName := fqName; help := help; variableLabels := variableLabels |}.

Definition BuildFQName (namespace subsystem name : string) : string :=
  if decide (name = "") then ""
  else
    String.append (if decide (namespace = "") then "" else String.append namespace "_")
      (String.append (if decide (subsystem = "") then "" else String.append subsystem "_")
         name).

(** A metric sent on the channel: the arguments of [MustNewConstMetric]
    (the value type is [GaugeValue] at every call). The checks that the
    Prometheus client makes on names and label values are not modelled. *)
Record Metric : Type := {
  desc : Desc;
  value : float;
  labelValues : list string
}.

Definition MustNewConstMetric (d : Desc) (v : float) (labels : list string) : Metric :=
  {| desc := d; value := v; labelValues := labels |}.

End prometheus.

Module log.

Inductive Level : Type := DebugLevel | InfoLevel | WarnLevel | ErrorLevel.

Record Entry : Type := {
  level : Level;
  message : string;
  fields : list (string * string)
}.

End log.

(** ** The configurable collector *)

Record ConfigurableCollector : Type := {
  crdConfig : CRDConfig.t;
  metricPrefix : string;
  resources : gmap string Unstructured;
  descriptors : gmap string prometheus.Desc
}.

Definition getCommonLabelNames (crd : CRDConfig.t) : list string :=
  getSortedKeys (CRDConfig.CommonLabels crd).

(** The label names that the [switch] of [initMetrics] computes; [None] is
    its [default] branch. *)
Definition labelNamesFor (commonLabelNames : list string) (metricCfg : MetricConfig.t)
  : option (list string) :=
  let ty := MetricConfig.Type_ metricCfg in
  if String.eqb ty "info" then
    Some (commonLabelNames ++ getSortedKeys (MetricConfig.Labels metricCfg))
  else if String.eqb ty "count" then
    let valueLabel :=
      if decide (MetricConfig.ValueLabel metricCfg = "") then "value"
      else MetricConfig.ValueLabel metricCfg in
    Some [valueLabel]
  else if String.eqb ty "gauge" then
    Some commonLabelNames
  else if String.eqb ty "map_state" then
    Some (commonLabelNames ++ [MetricConfig.KeyLabel metricCfg; "state"])
  else if String.eqb ty "map_gauge" then
    Some (commonLabelNames ++ [MetricConfig.KeyLabel metricCfg])
  else if String.eqb ty "conditions" then
    Some (commonLabelNames ++ ["type"; "status"; "reason"])
  else None.

(** One iteration of the loop of [initMetrics] over the descriptors built and
    the entries logged so far. *)
Definition initMetric (prefix : string) (commonLabelNames : list string)
  (st : gmap string prometheus.Desc * list log.Entry) (metricCfg : MetricConfig.t)
  : gmap string prometheus.Desc * list log.Entry :=
  let '(descs, logged) := st in
  let metricName := prometheus.BuildFQName prefix "" (MetricConfig.Name metricCfg) in
  match labelNamesFor commonLabelNames metricCfg with
  | None =>
      (descs,
       logged ++ [{| log.level := log.WarnLevel;
                     log.message := "Unknown metric type";
                     log.fields := [("type", MetricConfig.Type_ metricCfg)] |}])
  | Some labelNames =>
      let d := prometheus.NewDesc metricName (MetricConfig.Help metricCfg) labelNames in
      (<[MetricConfig.Name metricCfg := d]> descs, logged)
  end.

Definition initMetrics (crd : CRDConfig.t) (metricPrefix : string)
  : gmap string prometheus.Desc * list log.Entry :=
  let prefix :=
    if decide (metricPrefix <> "")
    then String.append metricPrefix (String.append "_" (sanitizeName (CRDConfig.Name crd)))
    else sanitizeName (CRDConfig.Name crd) in
  let commonLabelNames := getCommonLabelNames crd in
  fold_left (initMetric prefix commonLabelNames) (CRDConfig.Metrics crd) (∅, []).

(** [NewConfigurableCollector] has one result, the collector; the second
    component is what the constructor wrote to the logger. *)
Definition NewConfigurableCollector (crd : CRDConfig.t) (metricPrefix : string)
  : ConfigurableCollector * list log.Entry :=
  let '(descs, logged) := initMetrics crd metricPrefix in
  ({| crdConfig := crd; metricPrefix := metricPrefix;
      resources := ∅; descriptors := descs |}, logged).

Definition GetMetricDescriptors (c : ConfigurableCollector) : list prometheus.Desc :=
  (map_to_list (descriptors c)).*2.

(** *** The resource cache *)

Definition resourceKey (obj : Unstructured) : string :=
  String.append (unstructured.GetNamespace obj)
    (String.append "/" (unstructured.GetName obj)).

Definition setResources (c : ConfigurableCollector) (r : gmap string Unstructured)
  : ConfigurableCollector :=
  {| crdConfig := crdConfig c; metricPrefix := metricPrefix c;
     resources := r; descriptors := descriptors c |}.

Definition handleAdd (c : ConfigurableCollector) (obj : Unstructured) : ConfigurableCollector :=
  let key := resourceKey obj in
  setResources c (<[key := obj]> (resources c)).

Definition handleUpdate (c : ConfigurableCollector) (oldObj newObj : Unstructured)
  : ConfigurableCollector :=
  handleAdd c newObj.

Definition handleDelete (c : ConfigurableCollector) (obj : Unstructured) : ConfigurableCollector :=
  let key := resourceKey obj in
  setResources c (delete key (resources c)).

(** The calls of the [EventHandler] that [GetEventHandler] returns. *)
Inductive Event : Type :=
| OnAdd (obj : Unstructured)
| OnUpdate (oldObj newObj : Unstructured)
| OnDelete (obj : Unstructured).

(** The critical sections that a call runs, in order. Each handler locks
    [mu] once, for its whole body; [handleUpdate] is one call of
    [handleAdd]. *)
Definition sections (e : Event) : list (ConfigurableCollector -> ConfigurableCollector) :=
  match e with
  | OnAdd obj => [fun c => handleAdd c obj]
  | OnUpdate oldObj newObj => [fun c => handleUpdate c oldObj newObj]
  | OnDelete obj => [fun c => handleDelete c obj]
  end.

(** The states that a reader taking [mu] can find once the first of the
    given critical sections has run: the state left by each of them. *)
Fixpoint visible (ss : list (ConfigurableCollector -> ConfigurableCollector))
  (c : ConfigurableCollector) : list ConfigurableCollector :=
  match ss with
  | [] => []
  | s :: rest => s c :: visible rest (s c)
  end.

Definition dispatch (e : Event) (c : ConfigurableCollector) : ConfigurableCollector :=
  fold_left (fun st s => s st) (sections e) c.

(** *** The metric strategies *)

Definition extractCommonLabels (c : ConfigurableCollector) (obj : Unstructured) : list string :=
  map (fun path => extractFieldString obj path)
    (getSortedValues (CRDConfig.CommonLabels (crdConfig c))).

Definition collectInfoMetric (d : prometheus.Desc) (obj : Unstructured)
  (cfg : MetricConfig.t) (commonLabels : list string) : list prometheus.Metric :=
  let labels :=
    commonLabels
    ++ map (fun path => extractFieldString obj path) (getSortedValues (MetricConfig.Labels cfg)) in
  [prometheus.MustNewConstMetric d 1%float labels].

(** The first loop of [collectCountMetric]: [valueCounts[value]++] for every
    cached object with a non-empty value. *)
Definition countValue (path : string) (_ : string) (obj : Unstructured)
  (valueCounts : gmap string float) : gmap string float :=
  let value := extractFieldString obj path in
  if decide (value <> "")
  then <[value := (default 0 (valueCounts !! value) + 1)%float]> valueCounts
  else valueCounts.

Definition countValues (res : gmap string Unstructured) (path : string) : gmap string float :=
  map_fold (countValue path) ∅ res.

Definition collectCountMetric (c : ConfigurableCollector) (d : prometheus.Desc)
  (cfg : MetricConfig.t) : list prometheus.Metric :=
  let valueCounts := countValues (resources c) (MetricConfig.Path cfg) in
  map (fun '(value, count) => prometheus.MustNewConstMetric d count [value])
    (map_to_list valueCounts).

(** The body of the loop of [collectMapStateMetric] for one map entry. *)
Definition mapStateEntry (d : prometheus.Desc) (cfg : MetricConfig.t)
  (commonLabels : list string) (entry : string * any) : list prometheus.Metric :=
  let '(key, entryData) := entry in
  match entryData with
  | AMap entryMap =>
      let currentState :=
        match entryMap !! MetricConfig.ValuePath cfg with
        | Some (AString s) => s
        | _ => ""
        end in
      if decide (currentState = "") then []
      else [prometheus.MustNewConstMetric d 1%float (commonLabels ++ [key; currentState])]
  | _ => []
  end.

Definition collectMapStateMetric (d : prometheus.Desc) (obj : Unstructured)
  (cfg : MetricConfig.t) (commonLabels : list string) : outcome (list prometheus.Metric) :=
  mapData ← extractFieldMap obj (MetricConfig.Path cfg);
  Ret (flat_map (mapStateEntry d cfg commonLabels) (map_to_list (default ∅ mapData))).

(** The body of the loop of [collectConditionsMetric] for one element. *)
Definition conditionEntry (d : prometheus.Desc) (typeField statusField reasonField : string)
  (commonLabels : list string) (condData : any) : list prometheus.Metric :=
  match condData with
  | AMap condMap =>
      let str (field : string) :=
        match condMap !! field with
        | Some (AString s) => s
        | _ => ""
        end in
      let condType := str typeField in
      let condStatus := str statusField in
      let condReason := str reasonField in
      if decide (condType = "") then []
      else
        let labels := commonLabels ++ [condType; condStatus; condReason] in
        let v := if EqualFold condStatus "true" then 1%float else 0%float in
        [prometheus.MustNewConstMetric d v labels]
  | _ => []
  end.

Definition conditionFields (cfg : MetricConfig.t) : string * string * string :=
  match MetricConfig.Condition cfg with
  | Some cond =>
      (if decide (ConditionConfig.TypeField cond <> "")
       then ConditionConfig.TypeField cond else "type",
       if decide (ConditionConfig.StatusField cond <> "")
       then ConditionConfig.StatusField cond else "status",
       if decide (ConditionConfig.ReasonField cond <> "")
       then ConditionConfig.ReasonField cond else "reason")
  | None => ("type", "status", "reason")
  end.

Definition collectConditionsMetric (d : prometheus.Desc) (obj : Unstructured)
  (cfg : MetricConfig.t) (commonLabels : list string) : outcome (list prometheus.Metric) :=
  let '(typeField, statusField, reasonField) := conditionFields cfg in
  conditions ← extractFieldSlice obj (MetricConfig.Path cfg);
  Ret (flat_map (conditionEntry d typeField statusField reasonField commonLabels)
         (default [] conditions)).

Section Collect.
Context {strconv : Strconv}.

Definition collectGaugeMetric (d : prometheus.Desc) (obj : Unstructured)
  (cfg : MetricConfig.t) (commonLabels : list string) : list prometheus.Metric :=
  let v := extractFieldFloat obj (MetricConfig.Path cfg) in
  [prometheus.MustNewConstMetric d v commonLabels].

(** The body of the loop of [collectMapGaugeMetric] for one map entry. *)
Definition mapGaugeEntry (d : prometheus.Desc) (cfg : MetricConfig.t)
  (commonLabels : list string) (entry : string * any) : list prometheus.Metric :=
  let '(key, entryData) := entry in
  match entryData with
  | AMap entryMap =>
      let v :=
        match entryMap !! MetricConfig.ValuePath cfg with
        | Some rawValue => toFloat64 rawValue
        | None => 0%float
        end in
      [prometheus.MustNewConstMetric d v (commonLabels ++ [key])]
  | _ => []
  end.

Definition collectMapGaugeMetric (d : prometheus.Desc) (obj : Unstructured)
  (cfg : MetricConfig.t) (commonLabels : list string) : outcome (list prometheus.Metric) :=
  mapData ← extractFieldMap obj (MetricConfig.Path cfg);
  Ret (flat_map (mapGaugeEntry d cfg commonLabels) (map_to_list (default ∅ mapData))).

(** First pass of [collect], for one cached object and one metric. *)
Definition collectResourceMetric (c : ConfigurableCollector) (obj : Unstructured)
  (commonLabels : list string) (metricCfg : MetricConfig.t) : outcome (list prometheus.Metric) :=
  match descriptors c !! MetricConfig.Name metricCfg with
  | None => Ret []
  | Some d =>
      let ty := MetricConfig.Type_ metricCfg in
      if String.eqb ty "info" then Ret (collectInfoMetric d obj metricCfg commonLabels)
      else if String.eqb ty "gauge" then Ret (collectGaugeMetric d obj metricCfg commonLabels)
      else if String.eqb ty "map_state" then collectMapStateMetric d obj metricCfg commonLabels
      else if String.eqb ty "map_gauge" then collectMapGaugeMetric d obj metricCfg commonLabels
      else if String.eqb ty "conditions" then collectConditionsMetric d obj metricCfg commonLabels
      else Ret []
  end.

Definition collectResource (c : ConfigurableCollector) (obj : Unstructured)
  : outcome (list prometheus.Metric) :=
  let commonLabels := extractCommonLabels c obj in
  forM (collectResourceMetric c obj commonLabels) (CRDConfig.Metrics (crdConfig c)).

(** Second pass of [collect], for one metric. *)
Definition collectAggregateMetric (c : ConfigurableCollector) (metricCfg : MetricConfig.t)
  : list prometheus.Metric :=
  if negb (String.eqb (MetricConfig.Type_ metricCfg) "count") then []
  else
    match descriptors c !! MetricConfig.Name metricCfg with
    | None => []
    | Some d => collectCountMetric c d metricCfg
    end.

(** The metrics sent on the channel, in order. *)
Definition collect (c : ConfigurableCollector) : outcome (list prometheus.Metric) :=
  first ← forM (fun entry => collectResource c entry.2) (map_to_list (resources c));
  Ret (first ++ flat_map (collectAggregateMetric c) (CRDConfig.Metrics (crdConfig c))).

End Collect.

(** ** The windowed aggregators *)

(** [time.Duration] constants, in nanoseconds. *)
Module time.
Definition Second : Z := 1000000000.
Definition Minute : Z := 60 * Second.
Definition Hour : Z := 60 * Minute.
(** [t.Add(d)]. *)
Definition Add (t d : Z) : Z := t + d.
(** [t.Before(u)]. *)
Definition Before (t u : Z) : bool := t <? u.
(** The zero [time.Time]. *)
Definition zero : Z := 0.
End time.

(** The fields of [corev1.Pod] and [corev1.Event] that the aggregators read. *)
Module corev1.

Module Pod.
Record t : Type := {
  Namespace : string;
  Name : string;
  Phase : string;                         (* Status.Phase *)
  Conditions : list (string * string)     (* Status.Conditions: Type, Status *)
}.
End Pod.

Module Event.
Record t : Type := {
  Namespace : string;
  Reason : string;
  Type_ : string;
  Count : Z;                              (* int32 *)
  FirstTimestamp : Z;
  Kind : string;                          (* InvolvedObject.Kind *)
  Name : string                           (* InvolvedObject.Name *)
}.
End Event.

Definition PodPending : string := "Pending".
Definition PodRunning : string := "Running".
Definition PodFailed : string := "Failed".
Definition PodUnknown : string := "Unknown".
Definition PodScheduled : string := "PodScheduled".
Definition PodReady : string := "Ready".
Definition ConditionFalse : string := "False".

End corev1.

Module pod.

Record AggregatedPod : Type := {
  Namespace : string;
  Phase : string;
  Count : Z;
  LastSeen : Z;
  Pods : gmap string bool
}.

Record PodAggregator : Type := {
  windowSize : Z;
  aggregated : gmap string AggregatedPod;
  abnormalPods : gmap string Z
}.

Definition NewPodAggregator (windowSize : Z) : PodAggregator :=
  {| windowSize := windowSize; aggregated := ∅; abnormalPods := ∅ |}.

Definition podAggregationKey (p : corev1.Pod.t) : string :=
  String.append (corev1.Pod.Namespace p) (String.append "/" (corev1.Pod.Phase p)).

Definition hasCondition (p : corev1.Pod.t) (ty status : string) : bool :=
  existsb (fun cond => String.eqb cond.1 ty && String.eqb cond.2 status)
    (corev1.Pod.Conditions p).

Definition isPodAbnormal (p : corev1.Pod.t) : bool :=
  let phase := corev1.Pod.Phase p in
  if String.eqb phase corev1.PodFailed || String.eqb phase corev1.PodUnknown then true
  else if String.eqb phase corev1.PodPending
  then hasCondition p corev1.PodScheduled corev1.ConditionFalse
  else if String.eqb phase corev1.PodRunning
  then hasCondition p corev1.PodReady corev1.ConditionFalse
  else false.

Definition AddPod (a : PodAggregator) (now : Z) (p : option corev1.Pod.t) : PodAggregator :=
  match p with
  | None => a
  | Some p =>
      let key := podAggregationKey p in
      let aggregated' :=
        match aggregated a !! key with
        | Some agg =>
            <[key := {| Namespace := Namespace agg;
                        Phase := Phase agg;
                        Count := Z.of_nat (size (Pods agg)) + 1;
                        LastSeen := now;
                        Pods := <[corev1.Pod.Name p := true]> (Pods agg) |}]> (aggregated a)
        | None =>
            <[key := {| Namespace := corev1.Pod.Namespace p;
                        Phase := corev1.Pod.Phase p;
                        Count := 1;
                        LastSeen := now;
                        Pods := {[corev1.Pod.Name p := true]} |}]> (aggregated a)
        end in
      let abnormalPods' :=
        if isPodAbnormal p then
          let abnormalKey :=
            String.append (corev1.Pod.Namespace p) (String.append "/" (corev1.Pod.Name p)) in
          match abnormalPods a !! abnormalKey with
          | Some _ => abnormalPods a
          | None => <[abnormalKey := now]> (abnormalPods a)
          end
        else abnormalPods a in
      {| windowSize := windowSize a; aggregated := aggregated'; abnormalPods := abnormalPods' |}
  end.

Definition RemovePod (a : PodAggregator) (p : option corev1.Pod.t) : PodAggregator :=
  match p with
  | None => a
  | Some p =>
      let key := podAggregationKey p in
      let aggregated' :=
        match aggregated a !! key with
        | Some agg =>
            let pods := delete (corev1.Pod.Name p) (Pods agg) in
            let count := Z.of_nat (size pods) in
            if count =? 0 then delete key (aggregated a)
            else <[key := {| Namespace := Namespace agg; Phase := Phase agg;
                             Count := count; LastSeen := LastSeen agg;
                             Pods := pods |}]> (aggregated a)
        | None => aggregated a
        end in
      let abnormalKey :=
        String.append (corev1.Pod.Namespace p) (String.append "/" (corev1.Pod.Name p)) in
      {| windowSize := windowSize a; aggregated := aggregated';
         abnormalPods := delete abnormalKey (abnormalPods a) |}
  end.

Definition GetAggregated (a : PodAggregator) : gmap string AggregatedPod := aggregated a.

Definition GetAbnormalDuration (a : PodAggregator) (now : Z) (namespace podName : string) : Z :=
  let key := String.append namespace (String.append "/" podName) in
  match abnormalPods a !! key with
  | Some firstSeen => now - firstSeen
  | None => 0
  end.

(** [threshold := now.Add(-a.windowSize * 2)]: the negation and the product
    are 64-bit. *)
Definition threshold (a : PodAggregator) (now : Z) : Z :=
  time.Add now (wrap64 (wrap64 (- windowSize a) * 2)).

Definition cleanup (a : PodAggregator) (now : Z) : PodAggregator :=
  {| windowSize := windowSize a;
     aggregated :=
       filter (fun entry => time.Before (LastSeen entry.2) (threshold a now) = false)
         (aggregated a);
     abnormalPods := abnormalPods a |}.

(** A call by the collector or a tick of [cleanupLoop]. *)
Inductive step (a : PodAggregator) : PodAggregator -> Prop :=
| step_AddPod now p : step a (AddPod a now p)
| step_RemovePod p : step a (RemovePod a p)
| step_cleanup now : step a (cleanup a now).

End pod.

Module event.

Record AggregatedEvent : Type := {
  Namespace : string;
  Reason : string;
  Type_ : string;
  Kind : string;
  Count : Z;
  LastSeen : Z;
  FirstSeen : Z;
  UniqueObjects : gmap string bool
}.

Record EventAggregator : Type := {
  windowSize : Z;
  maxEvents : Z;
  aggregated : gmap string AggregatedEvent
}.

Definition NewEventAggregator (windowSize maxEvents : Z) : EventAggregator :=
  {| windowSize := windowSize; maxEvents := maxEvents; aggregated := ∅ |}.

Definition eventAggregationKey (e : corev1.Event.t) : string :=
  String.append (corev1.Event.Namespace e)
    (String.append "/" (String.append (corev1.Event.Reason e)
                          (String.append "/" (corev1.Event.Kind e)))).

(** One iteration of the loop of [removeOldest]. *)
Definition oldestStep (acc : string * Z) (entry : string * AggregatedEvent) : string * Z :=
  let '(oldestKey, oldestTime) := acc in
  let '(key, agg) := entry in
  if bool_decide (oldestKey = "") || time.Before (LastSeen agg) oldestTime
  then (key, LastSeen agg)
  else (oldestKey, oldestTime).

(** [order] is the order in which the [range] visits the map. *)
Definition removeOldest (order : list (string * AggregatedEvent))
  (m : gmap string AggregatedEvent) : gmap string AggregatedEvent :=
  let '(oldestKey, _) := fold_left oldestStep order ("", time.zero) in
  if bool_decide (oldestKey <> "") then delete oldestKey m else m.

(** The part of [AddEvent] after the capacity check. *)
Definition foldIn (m : gmap string AggregatedEvent) (now : Z) (e : corev1.Event.t)
  : gmap string AggregatedEvent :=
  let key := eventAggregationKey e in
  match m !! key with
  | Some agg =>
      <[key := {| Namespace := Namespace agg; Reason := Reason agg; Type_ := Type_ agg;
                  Kind := Kind agg;
                  Count := wrap64 (Count agg + corev1.Event.Count e);
                  LastSeen := now;
                  FirstSeen := FirstSeen agg;
                  UniqueObjects :=
                    if bool_decide (corev1.Event.Name e <> "")
                    then <[corev1.Event.Name e := true]> (UniqueObjects agg)
                    else UniqueObjects agg |}]> m
  | None =>
      let objects : gmap string bool :=
        if bool_decide (corev1.Event.Name e <> "")
        then {[corev1.Event.Name e := true]} else ∅ in
      <[key := {| Namespace := corev1.Event.Namespace e;
                  Reason := corev1.Event.Reason e;
                  Type_ := corev1.Event.Type_ e;
                  Kind := corev1.Event.Kind e;
                  Count := corev1.Event.Count e;
                  LastSeen := now;
                  FirstSeen := corev1.Event.FirstTimestamp e;
                  UniqueObjects := objects |}]> m
  end.

Definition AddEvent (order : list (string * AggregatedEvent)) (a : EventAggregator)
  (now : Z) (e : option corev1.Event.t) : EventAggregator :=
  match e with
  | None => a
  | Some e =>
      let m :=
        if Z.of_nat (size (aggregated a)) >=? maxEvents a
        then removeOldest order (aggregated a)
        else aggregated a in
      {| windowSize := windowSize a; maxEvents := maxEvents a;
         aggregated := foldIn m now e |}
  end.

Definition GetAggregated (a : EventAggregator) : gmap string AggregatedEvent := aggregated a.

(** [threshold := now.Add(-1 * time.Hour)]. *)
Definition threshold (now : Z) : Z := time.Add now (-1 * time.Hour).

Definition cleanup (a : EventAggregator) (now : Z) : EventAggregator :=
  {| windowSize := windowSize a; maxEvents := maxEvents a;
     aggregated :=
       filter (fun entry => time.Before (LastSeen entry.2) (threshold now) = false)
         (aggregated a) |}.

(** A call of [AddEvent], ranging over the map in some order, or a tick of
    [cleanupLoop]. *)
Inductive step (a : EventAggregator) : EventAggregator -> Prop :=
| step_AddEvent order now e :
    order ≡ₚ map_to_list (aggregated a) ->
    step a (AddEvent order a now e)
| step_cleanup now : step a (cleanup a now).

End event.


(** ** Predicates and data used in the statements *)

Definition failedPod : corev1.Pod.t :=
  {| corev1.Pod.Namespace := "default"; corev1.Pod.Name := "web-0";
     corev1.Pod.Phase := "Failed"; corev1.Pod.Conditions := [] |}.

Definition backOff : corev1.Event.t :=
  {| corev1.Event.Namespace := "default"; corev1.Event.Reason := "BackOff";
     corev1.Event.Type_ := "Warning"; corev1.Event.Count := 1;
     corev1.Event.FirstTimestamp := 0; corev1.Event.Kind := "Pod";
     corev1.Event.Name := "web-0" |}.

Definition failedBucket : pod.AggregatedPod :=
  {| pod.Namespace := "default"; pod.Phase := "Failed"; pod.Count := 1;
     pod.LastSeen := 0; pod.Pods := {["web-0" := true]} |}.

Definition backOffBucket : event.AggregatedEvent :=
  {| event.Namespace := "default"; event.Reason := "BackOff"; event.Type_ := "Warning";
     event.Kind := "Pod"; event.Count := 1; event.LastSeen := 0; event.FirstSeen := 0;
     event.UniqueObjects := {["web-0" := true]} |}.

Definition runningPod : corev1.Pod.t :=
  {| corev1.Pod.Namespace := "default"; corev1.Pod.Name := "web-0";
     corev1.Pod.Phase := "Running"; corev1.Pod.Conditions := [] |}.

(** What does hold of every bucket after any sequence of calls: the member
    set is not empty, and [Count] is the size of the member set or one more. *)
Definition bucket_ok (b : pod.AggregatedPod) : Prop :=
  (0 < size (pod.Pods b))%nat
  /\ (pod.Count b = Z.of_nat (size (pod.Pods b))
      \/ pod.Count b = Z.of_nat (size (pod.Pods b)) + 1).

Definition buckets_ok (a : pod.PodAggregator) : Prop :=
  forall k b, pod.aggregated a !! k = Some b -> bucket_ok b.

(** The result of the scan of [removeOldest] over [l]: nothing when [l] is
    empty, and otherwise an entry of [l] whose last-seen time is least. *)
Definition oldest_of (l : list (string * event.AggregatedEvent)) (acc : string * Z) : Prop :=
  acc.1 <> ""
  /\ (exists b, (acc.1, b) ∈ l /\ event.LastSeen b = acc.2)
  /\ (forall k b, (k, b) ∈ l -> acc.2 <= event.LastSeen b).

Definition keys_nonempty (m : gmap string event.AggregatedEvent) : Prop :=
  forall k, is_Some (m !! k) -> k <> "".

(** The invariant of the aggregator. *)
Definition within_capacity (a : event.EventAggregator) : Prop :=
  keys_nonempty (event.aggregated a)
  /\ Z.of_nat (size (event.aggregated a)) <= event.maxEvents a.

Definition backOffOther : corev1.Event.t :=
  {| corev1.Event.Namespace := "default"; corev1.Event.Reason := "Failed";
     corev1.Event.Type_ := "Warning"; corev1.Event.Count := 1;
     corev1.Event.FirstTimestamp := 0; corev1.Event.Kind := "Pod";
     corev1.Event.Name := "web-1" |}.

(** Two buckets in an aggregator of capacity two, touched at times 1 and 2. *)
Definition fullAggregator : event.EventAggregator :=
  let a0 := event.NewEventAggregator (5 * time.Minute) 2 in
  let a1 := event.AddEvent (map_to_list (event.aggregated a0)) a0 1 (Some backOff) in
  event.AddEvent (map_to_list (event.aggregated a1)) a1 2 (Some backOffOther).

Definition resourceWithPhase (phase : string) : Unstructured :=
  {| Object :=
       <["metadata" := AMap (<["namespace" := AString "default"]>
                               {["name" := AString "db-1"]})]>
         {["status" := AMap {["phase" := AString phase]}]} |}.

Definition emptyCollector : ConfigurableCollector :=
  {| crdConfig := {| CRDConfig.Name := "test-crd"; CRDConfig.CommonLabels := ∅;
                     CRDConfig.Metrics := [] |};
     metricPrefix := "test"; resources := ∅; descriptors := ∅ |}.

(** A [ParseFloat] for the closed examples. It gives Go's result on the
    strings that the examples hand to it (["3.5"], ["1e999"], ["abc"] and
    [""]) and is not meant for any other. *)
Definition exampleParseFloat : Strconv := fun s =>
  if String.eqb s "3.5" then Parsed 3.5%float
  else if String.eqb s "1e999" then ErrRange false
  else ErrSyntax.

(** The six metric types of the [switch] in [initMetrics]. *)
Definition knownTypes : list string :=
  ["info"; "count"; "gauge"; "map_state"; "map_gauge"; "conditions"].

Definition knownType (metricCfg : MetricConfig.t) : bool :=
  existsb (String.eqb (MetricConfig.Type_ metricCfg)) knownTypes.

Definition withMetrics (crd : CRDConfig.t) (metrics : list MetricConfig.t) : CRDConfig.t :=
  {| CRDConfig.Name := CRDConfig.Name crd;
     CRDConfig.CommonLabels := CRDConfig.CommonLabels crd;
     CRDConfig.Metrics := metrics |}.

Definition unknownTypeWarning (metricCfg : MetricConfig.t) : log.Entry :=
  {| log.level := log.WarnLevel;
     log.message := "Unknown metric type";
     log.fields := [("type", MetricConfig.Type_ metricCfg)] |}.

Definition metricOfType (ty name : string) : MetricConfig.t :=
  {| MetricConfig.Type_ := ty; MetricConfig.Name := name; MetricConfig.Help := "";
     MetricConfig.Path := "status.phase"; MetricConfig.ValuePath := "";
     MetricConfig.KeyLabel := ""; MetricConfig.ValueLabel := "phase";
     MetricConfig.Labels := ∅; MetricConfig.Condition := None |}.

(** A count metric and a metric of the unknown type ["histogram"]. *)
Definition histogramConfig : CRDConfig.t :=
  {| CRDConfig.Name := "test-crd";
     CRDConfig.CommonLabels := {["name" := "metadata.name"]};
     CRDConfig.Metrics := [metricOfType "count" "phase_count";
                           metricOfType "histogram" "latency"] |}.

(** [resolves v fields r]: the successive map lookups of [fields], started at
    [v], all succeed and end at [r]. A path has no such [r] when one of its
    segments is absent or is looked up in something that is not a map. *)
Inductive resolves : any -> list string -> any -> Prop :=
| resolves_nil (v : any) : resolves v [] v
| resolves_cons (m : gmap string any) (field : string) (rest : list string) (v r : any) :
    m !! field = Some v -> resolves v rest r -> resolves (AMap m) (field :: rest) r.

(** The value at a dot-separated path of an object. *)
Definition at_path (obj : Unstructured) (path : string) (r : any) : Prop :=
  path <> "" /\ resolves (AMap (Object obj)) (Split "." path) r.

(** The object holds JSON kinds only. *)
Definition json_object (obj : Unstructured) : Prop :=
  unstructured.jsonCopyable (AMap (Object obj)) = true.

(** The [float64] reached from 0 by [n] increments by one: the value of a
    counter after [n] executions of [valueCounts[value]++]. *)
Definition floatCount (n : nat) : float := Nat.iter n (fun x => (x + 1)%float) 0%float.

(** The cached objects whose extracted value at [path] is [v]. *)
Definition withValue (res : gmap string Unstructured) (path v : string)
  : gmap string Unstructured :=
  filter (fun entry => extractFieldString entry.2 path = v) res.

(** The entry that [countValues] holds for [v] when [n] objects have the
    value [v]. *)
Definition countEntry (v : string) (n : nat) : option float :=
  if decide (v = "") then None
  else match n with
       | O => None
       | S _ => Some (floatCount n)
       end.

Definition namedResource (name phase : string) : Unstructured :=
  {| Object :=
       <["metadata" := AMap {["name" := AString name]}]>
         {["status" := AMap {["phase" := AString phase]}]} |}.

(** Three objects in phase A, two in B, one in C, one with an empty phase
    and one whose phase is a number. *)
Definition phaseCache : ConfigurableCollector :=
  let c0 := (NewConfigurableCollector
               {| CRDConfig.Name := "test-crd"; CRDConfig.CommonLabels := ∅;
                  CRDConfig.Metrics := [metricOfType "count" "phase_count"] |} "test").1 in
  let objs := [namedResource "r1" "A"; namedResource "r2" "A"; namedResource "r3" "A";
               namedResource "r4" "B"; namedResource "r5" "B"; namedResource "r6" "C";
               namedResource "r7" "";
               {| Object := <["metadata" := AMap {["name" := AString "r8"]}]>
                              {["status" := AMap {["phase" := AInt64 7]}]} |}] in
  fold_left handleAdd objs c0.

(** The string found under [field] in [data]: empty when [data] is not a
    map, when the field is missing, and when its value is not a string. *)
Definition fieldString (field : string) (data : any) : string :=
  match data with
  | AMap m =>
      match m !! field with
      | Some (AString s) => s
      | _ => ""
      end
  | _ => ""
  end.

(** The map entry has a non-empty string state under [valuePath]. *)
Definition hasState (valuePath : string) (entry : string * any) : Prop :=
  fieldString valuePath entry.2 <> "".

#[global] Instance hasState_dec (valuePath : string) (entry : string * any) :
  Decision (hasState valuePath entry).
Proof. unfold hasState. apply _. Defined.

(** The map entry is itself a map. *)
Definition isMapEntry (entry : string * any) : Prop :=
  match entry.2 with
  | AMap _ => True
  | _ => False
  end.

#[global] Instance isMapEntry_dec (entry : string * any) : Decision (isMapEntry entry).
Proof. unfold isMapEntry. destruct entry.2; apply _. Defined.

Definition componentsConfig (ty valuePath : string) : MetricConfig.t :=
  {| MetricConfig.Type_ := ty; MetricConfig.Name := "component"; MetricConfig.Help := "";
     MetricConfig.Path := "status.components"; MetricConfig.ValuePath := valuePath;
     MetricConfig.KeyLabel := "component"; MetricConfig.ValueLabel := "";
     MetricConfig.Labels := ∅; MetricConfig.Condition := None |}.

(** Three entries under [status.components]: two components, one of them
    without a phase, and a note that is a string. *)
Definition components : gmap string any :=
  <["web" := AMap (<["phase" := AString "Running"]> {["replicas" := AInt64 3]})]>
    (<["db" := AMap {["replicas" := AInt64 1]}]>
       {["note" := AString "n/a"]}).

Definition componentsResource : Unstructured :=
  {| Object :=
       <["metadata" := AMap {["name" := AString "cluster-1"]}]>
         {["status" := AMap {["components" := AMap components]}]} |}.

Definition componentsDesc : prometheus.Desc :=
  prometheus.NewDesc "test_component" "" ["name"; "component"].

Definition conditionsConfig : MetricConfig.t :=
  {| MetricConfig.Type_ := "conditions"; MetricConfig.Name := "condition";
     MetricConfig.Help := ""; MetricConfig.Path := "status.conditions";
     MetricConfig.ValuePath := ""; MetricConfig.KeyLabel := ""; MetricConfig.ValueLabel := "";
     MetricConfig.Labels := ∅; MetricConfig.Condition := None |}.

Definition condition (ty status reason : string) : any :=
  AMap (<["type" := AString ty]> (<["status" := AString status]>
                                    {["reason" := AString reason]})).

Definition conditionsList : list any :=
  [condition "Ready" "True" "AllReady"; condition "Progressing" "False" "Complete";
   AMap {["status" := AString "True"]}; condition "Synced" "" ""].

Definition conditionsResource : Unstructured :=
  {| Object :=
       <["metadata" := AMap {["name" := AString "cluster-1"]}]>
         {["status" := AMap {["conditions" := ASlice conditionsList]}]} |}.

Definition conditionsDesc : prometheus.Desc :=
  prometheus.NewDesc "test_condition" "" ["name"; "type"; "status"; "reason"].

Definition phaseDesc : prometheus.Desc :=
  prometheus.NewDesc "test_test_crd_phase_count" "" ["phase"].

(** An object built by hand with a Go [int] under [status.replicas]. *)
Definition intResource : Unstructured :=
  {| Object := {["status" := AMap {["replicas" := AInt 3]}]} |}.

(** ** Further predicates and data *)

(** The mapping that [sanitizeName] hands to [strings.Map]. *)
Definition sanitizeRune (r : Z) : ascii :=
  if ((97 <=? r) && (r <=? 122)) || ((65 <=? r) && (r <=? 90))
     || ((48 <=? r) && (r <=? 57)) || (r =? 95)
  then ascii_of_N (Z.to_N r)
  else "_"%char.

(** A byte of [a-z0-9_]. *)
Definition isNameByte (c : ascii) : bool :=
  between 97 122 c || between 48 57 c || (code c =? 95).

Definition bytes (s : string) : list ascii := list_ascii_of_string s.

(** The prefix of the metric names that [initMetrics] computes. *)
Definition namePrefix (crd : CRDConfig.t) (metricPrefix : string) : string :=
  if decide (metricPrefix <> "")
  then String.append metricPrefix (String.append "_" (sanitizeName (CRDConfig.Name crd)))
  else sanitizeName (CRDConfig.Name crd).

(** The descriptors of the collector are those that [initMetrics] builds
    from its configuration: so it is after [NewConfigurableCollector] and
    after every event handler. *)
Definition built (c : ConfigurableCollector) : Prop :=
  descriptors c = (initMetrics (crdConfig c) (metricPrefix c)).1.

(** The metric names of a configuration are pairwise distinct. *)
Definition distinctNames (crd : CRDConfig.t) : Prop :=
  NoDup (map MetricConfig.Name (CRDConfig.Metrics crd)).

Definition infoMetric : MetricConfig.t :=
  {| MetricConfig.Type_ := "info"; MetricConfig.Name := "info";
     MetricConfig.Help := "Resource info"; MetricConfig.Path := "";
     MetricConfig.ValuePath := ""; MetricConfig.KeyLabel := "";
     MetricConfig.ValueLabel := "";
     MetricConfig.Labels := {["phase" := "status.phase"]};
     MetricConfig.Condition := None |}.

(** An info metric with an extra label, a gauge and a count. *)
Definition threeMetrics : CRDConfig.t :=
  {| CRDConfig.Name := "test-crd";
     CRDConfig.CommonLabels := <["namespace" := "metadata.namespace"]>
                                 {["name" := "metadata.name"]};
     CRDConfig.Metrics :=
       [infoMetric; metricOfType "gauge" "replicas"; metricOfType "count" "phase_count"] |}.

(** The metric carries the descriptor [d] and as many label values as [d]
    has label names. *)
Definition labelled (d : prometheus.Desc) (metric : prometheus.Metric) : Prop :=
  prometheus.desc metric = d
  /\ length (prometheus.labelValues metric) = length (prometheus.variableLabels d).

(** A collector for [threeMetrics] with one cached object. *)
Definition threeMetricsCollector : ConfigurableCollector :=
  handleAdd (NewConfigurableCollector threeMetrics "sealos").1 (resourceWithPhase "Running").


(** The events delivered so far, applied in order. *)
Definition replay (events : list Event) (c : ConfigurableCollector) : ConfigurableCollector :=
  fold_left (fun st e => dispatch e st) events c.

(** What an event does to the cache entry of key [k]: [Some (Some obj)]
    binds it to [obj], [Some None] removes it, [None] leaves it alone.
    [OnUpdate] looks at its new object only. *)
Definition effectOn (k : string) (e : Event) : option (option Unstructured) :=
  match e with
  | OnAdd obj | OnUpdate _ obj =>
      if decide (resourceKey obj = k) then Some (Some obj) else None
  | OnDelete obj =>
      if decide (resourceKey obj = k) then Some None else None
  end.

(** The key of [abnormalPods] for a pod. *)
Definition abnormalKey (p : corev1.Pod.t) : string :=
  String.append (corev1.Pod.Namespace p) (String.append "/" (corev1.Pod.Name p)).

(** The bucket is filed under the key of its own namespace and phase. *)
Definition pod_keys_ok (a : pod.PodAggregator) : Prop :=
  forall k b, pod.aggregated a !! k = Some b ->
    k = String.append (pod.Namespace b) (String.append "/" (pod.Phase b)).

Definition pendingPod : corev1.Pod.t :=
  {| corev1.Pod.Namespace := "default"; corev1.Pod.Name := "web-0";
     corev1.Pod.Phase := "Pending";
     corev1.Pod.Conditions := [("PodScheduled", "False")] |}.

(** The bucket is filed under the key of its own namespace, reason and kind,
    and the empty object name is not among its objects. *)
Definition event_bucket_ok (k : string) (b : event.AggregatedEvent) : Prop :=
  k = String.append (event.Namespace b)
        (String.append "/" (String.append (event.Reason b)
                              (String.append "/" (event.Kind b))))
  /\ event.UniqueObjects b !! "" = None.

Definition event_buckets_ok (a : event.EventAggregator) : Prop :=
  forall k b, event.aggregated a !! k = Some b -> event_bucket_ok k b.

(** A second event of the bucket of [backOff], of another type and about
    another pod. *)
Definition backOffAgain : corev1.Event.t :=
  {| corev1.Event.Namespace := "default"; corev1.Event.Reason := "BackOff";
     corev1.Event.Type_ := "Normal"; corev1.Event.Count := 4;
     corev1.Event.FirstTimestamp := 50; corev1.Event.Kind := "Pod";
     corev1.Event.Name := "web-1" |}.

(** * Properties *)

(** ** Names and label order *)

Example sanitizeName_ex : sanitizeName "Test-CRD.v1" = "test_crd_v1".
Proof. vm_compute. reflexivity. Qed.

(** A two-byte rune becomes one underscore, a stray continuation byte too. *)
Example sanitizeName_runes :
  sanitizeName (String (ascii_of_N 195) (String (ascii_of_N 169) "A"))= "_a"
  /\ sanitizeName (String (ascii_of_N 169) "A") = "_a".
Proof. vm_compute. split; reflexivity. Qed.

Example getSortedKeys_ex :
  getSortedKeys (<["namespace" := "metadata.namespace"]> {["name" := "metadata.name"]})
  = ["name"; "namespace"].
Proof. vm_compute. reflexivity. Qed.

(** ** Timer-driven cleanup *)

Lemma wrap64_small (z : Z) : - 2 ^ 63 <= z < 2 ^ 63 -> wrap64 z = z.
Proof.
  intros Hz. unfold wrap64.
  rewrite Z.mod_small by lia. lia.
Qed.

Lemma pod_threshold_exact (a : pod.PodAggregator) (now : Z) :
  0 < pod.windowSize a -> 2 * pod.windowSize a < 2 ^ 63 ->
  pod.threshold a now = now - 2 * pod.windowSize a.
Proof.
  intros Hpos Hsmall. unfold pod.threshold, time.Add.
  rewrite (wrap64_small (- pod.windowSize a)) by lia.
  rewrite wrap64_small by lia. lia.
Qed.

Lemma pod_cleanup_lookup (a : pod.PodAggregator) (now : Z) (k : string) (b : pod.AggregatedPod) :
  pod.aggregated a !! k = Some b ->
  pod.aggregated (pod.cleanup a now) !! k
  = if pod.LastSeen b <? pod.threshold a now then None else Some b.
Proof.
  intros Hk. unfold pod.cleanup, time.Before. simpl.
  destruct (pod.LastSeen b <? pod.threshold a now) eqn:Hlt.
  - apply map_lookup_filter_None. right. intros b' Hb'. simpl.
    rewrite Hk in Hb'. injection Hb' as <-. rewrite Hlt. discriminate.
  - apply map_lookup_filter_Some. split; [exact Hk | exact Hlt].
Qed.

Lemma event_cleanup_lookup (a : event.EventAggregator) (now : Z) (k : string)
  (b : event.AggregatedEvent) :
  event.aggregated a !! k = Some b ->
  event.aggregated (event.cleanup a now) !! k
  = if event.LastSeen b <? now - time.Hour then None else Some b.
Proof.
  intros Hk. unfold event.cleanup, event.threshold, time.Before, time.Add. simpl.
  replace (now + -1 * time.Hour) with (now - time.Hour) by lia.
  destruct (event.LastSeen b <? now - time.Hour) eqn:Hlt.
  - apply map_lookup_filter_None. right. intros b' Hb'. simpl.
    rewrite Hk in Hb'. injection Hb' as <-. rewrite Hlt. discriminate.
  - apply map_lookup_filter_Some. split; [exact Hk | exact Hlt].
Qed.

(** C2, as amended. A cleanup of the pod aggregator at [now] keeps a bucket
    last seen at [t] when [now <= t + 2 * windowSize] and deletes it when
    [t + 2 * windowSize < now]; so it is present at [t + 1.5 * windowSize]
    and absent at [t + 2.5 * windowSize]. A cleanup of the event aggregator
    keeps the bucket when [now <= t + 1h] and deletes it when [t + 1h < now],
    whatever [windowSize] is. *)
Theorem cleanup_retention :
  (forall (a : pod.PodAggregator) (now : Z) (k : string) (b : pod.AggregatedPod),
      0 < pod.windowSize a -> 2 * pod.windowSize a < 2 ^ 63 ->
      pod.aggregated a !! k = Some b ->
      (now <= pod.LastSeen b + 2 * pod.windowSize a ->
       pod.aggregated (pod.cleanup a now) !! k = Some b)
      /\ (pod.LastSeen b + 2 * pod.windowSize a < now ->
          pod.aggregated (pod.cleanup a now) !! k = None)
      /\ (2 * (now - pod.LastSeen b) = 3 * pod.windowSize a ->
          pod.aggregated (pod.cleanup a now) !! k = Some b)
      /\ (2 * (now - pod.LastSeen b) = 5 * pod.windowSize a ->
          pod.aggregated (pod.cleanup a now) !! k = None))
  /\
  (forall (a : event.EventAggregator) (now : Z) (k : string) (b : event.AggregatedEvent),
      event.aggregated a !! k = Some b ->
      (now <= event.LastSeen b + time.Hour ->
       event.aggregated (event.cleanup a now) !! k = Some b)
      /\ (event.LastSeen b + time.Hour < now ->
          event.aggregated (event.cleanup a now) !! k = None)).
Proof.
  split.
  - intros a now k b Hpos Hsmall Hk.
    pose proof (pod_cleanup_lookup a now k b Hk) as Hc.
    rewrite (pod_threshold_exact a now Hpos Hsmall) in Hc.
    repeat split; intros Hnow; rewrite Hc.
    + destruct (Z.ltb_spec (pod.LastSeen b) (now - 2 * pod.windowSize a)); [lia | reflexivity].
    + destruct (Z.ltb_spec (pod.LastSeen b) (now - 2 * pod.windowSize a)); [reflexivity | lia].
    + destruct (Z.ltb_spec (pod.LastSeen b) (now - 2 * pod.windowSize a)); [lia | reflexivity].
    + destruct (Z.ltb_spec (pod.LastSeen b) (now - 2 * pod.windowSize a)); [reflexivity | lia].
  - intros a now k b Hk.
    pose proof (event_cleanup_lookup a now k b Hk) as Hc.
    split; intros Hnow; rewrite Hc.
    + destruct (Z.ltb_spec (event.LastSeen b) (now - time.Hour)); [lia | reflexivity].
    + destruct (Z.ltb_spec (event.LastSeen b) (now - time.Hour)); [reflexivity | lia].
Qed.

(** With a window of five minutes and a bucket touched at time 0, the pod
    bucket survives the cleanup at 7.5 minutes and is gone at 12.5 minutes;
    the event bucket survives at one hour and is gone a nanosecond later. *)
Lemma cleanup_retention_witness :
  let pa := pod.AddPod (pod.NewPodAggregator (5 * time.Minute)) 0 (Some failedPod) in
  let ea := event.AddEvent [] (event.NewEventAggregator (5 * time.Minute) 100) 0 (Some backOff) in
  pod.aggregated (pod.cleanup pa (450 * time.Second)) !! "default/Failed" = Some failedBucket
  /\ pod.aggregated (pod.cleanup pa (750 * time.Second)) !! "default/Failed" = None
  /\ event.aggregated (event.cleanup ea time.Hour) !! "default/BackOff/Pod" = Some backOffBucket
  /\ event.aggregated (event.cleanup ea (time.Hour + 1)) !! "default/BackOff/Pod" = None.
Proof.
  intros pa ea.
  destruct cleanup_retention as [Hpod Hevent].
  assert (Hpa : pod.aggregated pa !! "default/Failed" = Some failedBucket) by reflexivity.
  assert (Hea : event.aggregated ea !! "default/BackOff/Pod" = Some backOffBucket) by reflexivity.
  assert (Hpos : 0 < pod.windowSize pa) by reflexivity.
  assert (Hsmall : 2 * pod.windowSize pa < 2 ^ 63) by reflexivity.
  split; [| split; [| split]].
  - apply (Hpod pa (450 * time.Second) _ _ Hpos Hsmall Hpa). reflexivity.
  - apply (Hpod pa (750 * time.Second) _ _ Hpos Hsmall Hpa). reflexivity.
  - apply (Hevent ea time.Hour _ _ Hea). vm_compute. discriminate.
  - apply (Hevent ea (time.Hour + 1) _ _ Hea). reflexivity.
Defined.

(** C2 fails for the event aggregator: with a window of five minutes, the
    bucket touched at time 0 is still there after the cleanup at 12.5
    minutes, two and a half windows later. *)
Lemma event_cleanup_keeps_after_two_windows :
  let T := 5 * time.Minute in
  let ea := event.AddEvent [] (event.NewEventAggregator T 100) 0 (Some backOff) in
  let now := 750 * time.Second in
  event.aggregated ea !! "default/BackOff/Pod" = Some backOffBucket
  /\ event.LastSeen backOffBucket = 0
  /\ 2 * (now - 0) = 5 * T
  /\ event.aggregated (event.cleanup ea now) !! "default/BackOff/Pod" = Some backOffBucket.
Proof.
  vm_compute. repeat split; reflexivity.
Qed.

(** ** Pod buckets: count and member set *)

(** C3, at the failing input. Adding the same pod twice leaves one bucket
    whose member set holds the one pod while its [Count] is 2: [AddPod] sets
    [Count] to [len(agg.Pods) + 1] before inserting the name, whether or not
    the name is already a member. *)
Theorem AddPod_twice_counts_twice :
  let a0 := pod.NewPodAggregator (5 * time.Minute) in
  let a2 := pod.AddPod (pod.AddPod a0 10 (Some runningPod)) 20 (Some runningPod) in
  pod.aggregated a2 !! "default/Running"
  = Some {| pod.Namespace := "default"; pod.Phase := "Running"; pod.Count := 2;
            pod.LastSeen := 20; pod.Pods := {["web-0" := true]} |}
  /\ size ({["web-0" := true]} : gmap string bool) = 1%nat.
Proof.
  vm_compute. split; reflexivity.
Qed.

Lemma AddPod_buckets_ok (a : pod.PodAggregator) (now : Z) (p : option corev1.Pod.t) :
  buckets_ok a -> buckets_ok (pod.AddPod a now p).
Proof.
  intros Ha. destruct p as [p|]; [| exact Ha].
  intros k b. unfold pod.AddPod. cbn [pod.aggregated].
  destruct (pod.aggregated a !! pod.podAggregationKey p) as [agg|] eqn:Hagg.
  - destruct (decide (pod.podAggregationKey p = k)) as [<-|Hne].
    + rewrite lookup_insert_eq. intros [= <-]. unfold bucket_ok. cbn.
      destruct (pod.Pods agg !! corev1.Pod.Name p) as [x|] eqn:Hx.
      * rewrite map_size_insert_Some by eauto.
        destruct (Ha _ _ Hagg) as [Hpos _]. split; [exact Hpos | right; reflexivity].
      * rewrite map_size_insert_None by exact Hx. split; [lia | left; lia].
    + rewrite lookup_insert_ne by exact Hne. apply Ha.
  - destruct (decide (pod.podAggregationKey p = k)) as [<-|Hne].
    + rewrite lookup_insert_eq. intros [= <-]. unfold bucket_ok. cbn.
      rewrite map_size_singleton. split; [lia | left; reflexivity].
    + rewrite lookup_insert_ne by exact Hne. apply Ha.
Qed.

Lemma RemovePod_buckets_ok (a : pod.PodAggregator) (p : option corev1.Pod.t) :
  buckets_ok a -> buckets_ok (pod.RemovePod a p).
Proof.
  intros Ha. destruct p as [p|]; [| exact Ha].
  intros k b. unfold pod.RemovePod. cbn [pod.aggregated].
  destruct (pod.aggregated a !! pod.podAggregationKey p) as [agg|] eqn:Hagg; [| apply Ha].
  destruct (Z.eqb_spec (Z.of_nat (size (delete (corev1.Pod.Name p) (pod.Pods agg)))) 0)
    as [Hz|Hnz].
  - intros Hk. apply lookup_delete_Some in Hk as [_ Hk]. exact (Ha _ _ Hk).
  - destruct (decide (pod.podAggregationKey p = k)) as [<-|Hne].
    + rewrite lookup_insert_eq. intros [= <-]. unfold bucket_ok. cbn.
      split; [lia | left; reflexivity].
    + rewrite lookup_insert_ne by exact Hne. apply Ha.
Qed.

Lemma pod_cleanup_buckets_ok (a : pod.PodAggregator) (now : Z) :
  buckets_ok a -> buckets_ok (pod.cleanup a now).
Proof.
  intros Ha k b. unfold pod.cleanup. cbn [pod.aggregated].
  intros Hk. apply map_lookup_filter_Some in Hk as [Hk _]. exact (Ha _ _ Hk).
Qed.

Lemma pod_reachable_buckets_ok (T : Z) (a : pod.PodAggregator) :
  rtc pod.step (pod.NewPodAggregator T) a -> buckets_ok a.
Proof.
  intros Hreach. apply rtc_nsteps in Hreach as [n Hn].
  revert a Hn. induction n as [|n IH]; intros a Hn.
  - inversion Hn; subst. intros k b Hk. cbn in Hk. rewrite lookup_empty in Hk. discriminate.
  - apply nsteps_inv_r in Hn as (mid & Hmid & Hstep).
    specialize (IH _ Hmid).
    destruct Hstep;
      auto using AddPod_buckets_ok, RemovePod_buckets_ok, pod_cleanup_buckets_ok.
Qed.

(** ** Capacity eviction in the event aggregator *)

Lemma append_nonempty (s t : string) (c : ascii) : String.append s (String c t) <> "".
Proof. destruct s; discriminate. Qed.

Lemma eventAggregationKey_nonempty (e : corev1.Event.t) : event.eventAggregationKey e <> "".
Proof. apply append_nonempty. Qed.

Lemma oldest_scan (l : list (string * event.AggregatedEvent)) :
  (forall k b, (k, b) ∈ l -> k <> "") ->
  (l = [] /\ fold_left event.oldestStep l ("", time.zero) = ("", time.zero))
  \/ oldest_of l (fold_left event.oldestStep l ("", time.zero)).
Proof.
  induction l as [|[k b] l IH] using rev_ind; intros Hkeys.
  - left. split; reflexivity.
  - right. rewrite fold_left_app. cbn [fold_left].
    assert (Hl : forall k' b', (k', b') ∈ l -> k' <> "").
    { intros k' b' Hin. apply (Hkeys k' b'). apply elem_of_app. left. exact Hin. }
    assert (Hk : k <> "").
    { apply (Hkeys k b). apply elem_of_app. right. apply list_elem_of_singleton. reflexivity. }
    destruct (IH Hl) as [[-> ->] | (Hne & (b0 & Hin0 & Hseen0) & Hmin)].
    + cbn [fold_left]. unfold event.oldestStep.
      rewrite (bool_decide_eq_true_2 ("" = "")) by reflexivity. cbn [orb].
      split; [exact Hk |]. split.
      * exists b. split; [apply list_elem_of_singleton; reflexivity | reflexivity].
      * intros k' b' Hin. apply list_elem_of_singleton in Hin. injection Hin as -> ->. cbn. lia.
    + destruct (fold_left event.oldestStep l ("", time.zero)) as [ok ot] eqn:Hfold.
      cbn in Hne, Hin0, Hseen0, Hmin. unfold event.oldestStep.
      rewrite bool_decide_eq_false_2 by exact Hne. cbn [orb]. unfold time.Before.
      destruct (Z.ltb_spec (event.LastSeen b) ot) as [Hlt|Hge].
      * split; [exact Hk |]. split.
        -- exists b. split; [| reflexivity].
           apply elem_of_app. right. apply list_elem_of_singleton. reflexivity.
        -- intros k' b' Hin. cbn. apply elem_of_app in Hin as [Hin|Hin].
           ++ specialize (Hmin _ _ Hin). lia.
           ++ apply list_elem_of_singleton in Hin. injection Hin as -> ->. lia.
      * split; [exact Hne |]. split.
        -- exists b0. split; [| exact Hseen0]. apply elem_of_app. left. exact Hin0.
        -- intros k' b' Hin. cbn. apply elem_of_app in Hin as [Hin|Hin].
           ++ exact (Hmin _ _ Hin).
           ++ apply list_elem_of_singleton in Hin. injection Hin as -> ->. lia.
Qed.

(** [removeOldest] on a non-empty map deletes one bucket, and no bucket of
    the map was last seen before it. *)
Lemma removeOldest_spec (order : list (string * event.AggregatedEvent))
  (m : gmap string event.AggregatedEvent) :
  order ≡ₚ map_to_list m -> keys_nonempty m -> m <> ∅ ->
  exists k b, m !! k = Some b
    /\ (forall k' b', m !! k' = Some b' -> event.LastSeen b <= event.LastSeen b')
    /\ event.removeOldest order m = delete k m.
Proof.
  intros Hperm Hkeys Hne.
  assert (Hin : forall k b, (k, b) ∈ order <-> m !! k = Some b).
  { intros k b. rewrite Hperm. apply elem_of_map_to_list. }
  destruct (oldest_scan order) as [[Hnil _] | (Hk & (b & Hb & Hseen) & Hmin)].
  - intros k b Hkb. apply Hkeys. exists b. apply Hin. exact Hkb.
  - exfalso. apply Hne. apply map_to_list_empty_iff.
    apply Permutation_nil_r. rewrite <- Hnil. symmetry. exact Hperm.
  - unfold event.removeOldest.
    destruct (fold_left event.oldestStep order ("", time.zero)) as [ok ot].
    cbn in Hk, Hb, Hseen, Hmin.
    exists ok, b. split; [apply Hin; exact Hb |]. split.
    + intros k' b' Hk'. rewrite Hseen. apply (Hmin k' b'). apply Hin. exact Hk'.
    + rewrite bool_decide_eq_true_2 by exact Hk. reflexivity.
Qed.

Lemma foldIn_insert (m : gmap string event.AggregatedEvent) (now : Z) (e : corev1.Event.t) :
  exists b, event.foldIn m now e = <[event.eventAggregationKey e := b]> m.
Proof.
  unfold event.foldIn. destruct (m !! event.eventAggregationKey e); eauto.
Qed.

Lemma foldIn_size (m : gmap string event.AggregatedEvent) (now : Z) (e : corev1.Event.t) :
  (size (event.foldIn m now e) <= S (size m))%nat.
Proof.
  destruct (foldIn_insert m now e) as [b ->].
  destruct (m !! event.eventAggregationKey e) eqn:Hk.
  - rewrite map_size_insert_Some by eauto. lia.
  - rewrite map_size_insert_None by exact Hk. lia.
Qed.

Lemma foldIn_keys (m : gmap string event.AggregatedEvent) (now : Z) (e : corev1.Event.t) :
  keys_nonempty m -> keys_nonempty (event.foldIn m now e).
Proof.
  intros Hm k. destruct (foldIn_insert m now e) as [b ->].
  destruct (decide (event.eventAggregationKey e = k)) as [<-|Hne].
  - intros _. apply eventAggregationKey_nonempty.
  - rewrite lookup_insert_ne by exact Hne. apply Hm.
Qed.

(** An [AddEvent] that finds the map full evicts an oldest bucket, then folds
    the event into what is left. *)
Lemma AddEvent_full (order : list (string * event.AggregatedEvent)) (a : event.EventAggregator)
  (now : Z) (e : corev1.Event.t) :
  order ≡ₚ map_to_list (event.aggregated a) ->
  keys_nonempty (event.aggregated a) ->
  1 <= event.maxEvents a ->
  event.maxEvents a <= Z.of_nat (size (event.aggregated a)) ->
  exists k b, event.aggregated a !! k = Some b
    /\ (forall k' b', event.aggregated a !! k' = Some b' ->
        event.LastSeen b <= event.LastSeen b')
    /\ event.aggregated (event.AddEvent order a now (Some e))
       = event.foldIn (delete k (event.aggregated a)) now e.
Proof.
  intros Hperm Hkeys Hmax Hfull.
  assert (Hne : event.aggregated a <> ∅).
  { intros Hempty. rewrite Hempty, map_size_empty in Hfull. lia. }
  destruct (removeOldest_spec order _ Hperm Hkeys Hne) as (k & b & Hk & Hmin & Hrem).
  exists k, b. split; [exact Hk |]. split; [exact Hmin |].
  unfold event.AddEvent. cbn [event.aggregated].
  destruct (Z.geb_spec (Z.of_nat (size (event.aggregated a))) (event.maxEvents a)); [| lia].
  rewrite Hrem. reflexivity.
Qed.

Lemma AddEvent_within (order : list (string * event.AggregatedEvent)) (a : event.EventAggregator)
  (now : Z) (e : option corev1.Event.t) :
  order ≡ₚ map_to_list (event.aggregated a) ->
  1 <= event.maxEvents a ->
  within_capacity a -> within_capacity (event.AddEvent order a now e).
Proof.
  intros Hperm Hmax [Hkeys Hsize]. destruct e as [e|]; [| split; assumption].
  destruct (Z.le_gt_cases (event.maxEvents a) (Z.of_nat (size (event.aggregated a))))
    as [Hfull|Hroom].
  - destruct (AddEvent_full order a now e Hperm Hkeys Hmax Hfull) as (k & b & Hk & _ & Heq).
    assert (Hdel : keys_nonempty (delete k (event.aggregated a))).
    { intros k' [b' Hk']. apply lookup_delete_Some in Hk' as [_ Hk']. apply Hkeys. eauto. }
    split.
    + rewrite Heq. apply foldIn_keys. exact Hdel.
    + rewrite Heq. cbn [event.AddEvent event.maxEvents].
      pose proof (foldIn_size (delete k (event.aggregated a)) now e) as Hle.
      rewrite map_size_delete_Some in Hle by eauto.
      assert (0 < size (event.aggregated a))%nat.
      { apply Nat.neq_0_lt_0. intros Hz. apply map_size_empty_inv in Hz.
        rewrite Hz, lookup_empty in Hk. discriminate. }
      lia.
  - unfold event.AddEvent, within_capacity. cbn [event.aggregated event.maxEvents].
    destruct (Z.geb_spec (Z.of_nat (size (event.aggregated a))) (event.maxEvents a)); [lia |].
    split.
    + apply foldIn_keys. exact Hkeys.
    + pose proof (foldIn_size (event.aggregated a) now e). lia.
Qed.

Lemma event_cleanup_within (a : event.EventAggregator) (now : Z) :
  within_capacity a -> within_capacity (event.cleanup a now).
Proof.
  intros [Hkeys Hsize]. unfold within_capacity, event.cleanup.
  cbn [event.aggregated event.maxEvents]. split.
  - intros k [b Hk]. apply map_lookup_filter_Some in Hk as [Hk _]. apply Hkeys. eauto.
  - etransitivity; [| exact Hsize]. apply inj_le. apply map_size_filter.
Qed.

Lemma event_step_maxEvents (a a' : event.EventAggregator) :
  event.step a a' -> event.maxEvents a' = event.maxEvents a.
Proof. intros [order now [e|] _ | now]; reflexivity. Qed.

(** C10. From a new aggregator with [maxEvents >= 1], after any sequence of
    [AddEvent] calls (and cleanup ticks) the number of buckets is at most
    [maxEvents]; and an [AddEvent] that finds at least [maxEvents] buckets
    removes one bucket with the least last-seen time before it folds the
    event in, whatever the key of the event, and leaves at most [maxEvents]
    buckets. *)
Theorem AddEvent_bounded (windowSize maxEvents : Z) (a : event.EventAggregator) :
  1 <= maxEvents ->
  rtc event.step (event.NewEventAggregator windowSize maxEvents) a ->
  event.maxEvents a = maxEvents
  /\ Z.of_nat (size (event.aggregated a)) <= maxEvents
  /\ forall order now e,
      order ≡ₚ map_to_list (event.aggregated a) ->
      Z.of_nat (size (event.aggregated (event.AddEvent order a now (Some e)))) <= maxEvents
      /\ (maxEvents <= Z.of_nat (size (event.aggregated a)) ->
          exists k b, event.aggregated a !! k = Some b
            /\ (forall k' b', event.aggregated a !! k' = Some b' ->
                event.LastSeen b <= event.LastSeen b')
            /\ event.aggregated (event.AddEvent order a now (Some e))
               = event.foldIn (delete k (event.aggregated a)) now e).
Proof.
  intros Hmax Hreach.
  assert (Hinv : event.maxEvents a = maxEvents /\ within_capacity a).
  { apply rtc_nsteps in Hreach as [n Hn].
    revert a Hn. induction n as [|n IH]; intros a Hn.
    - inversion Hn; subst. split; [reflexivity |]. split.
      + intros k [b Hk]. cbn in Hk. rewrite lookup_empty in Hk. discriminate.
      + cbn. rewrite map_size_empty. lia.
    - apply nsteps_inv_r in Hn as (mid & Hmid & Hstep).
      destruct (IH _ Hmid) as [Hm Hw]. split.
      + rewrite (event_step_maxEvents _ _ Hstep). exact Hm.
      + destruct Hstep as [order now e Hperm | now].
        * apply AddEvent_within; [exact Hperm | lia | exact Hw].
        * apply event_cleanup_within. exact Hw. }
  destruct Hinv as [Hm [Hkeys Hsize]].
  split; [exact Hm |]. split; [lia |].
  intros order now e Hperm. split.
  - assert (Hw : within_capacity (event.AddEvent order a now (Some e))).
    { apply AddEvent_within; [exact Hperm | lia | split; assumption]. }
    destruct Hw as [_ Hw].
    change (event.maxEvents (event.AddEvent order a now (Some e)))
      with (event.maxEvents a) in Hw.
    lia.
  - intros Hfull. apply AddEvent_full; [exact Hperm | exact Hkeys | lia | lia].
Qed.

Lemma fullAggregator_reachable :
  rtc event.step (event.NewEventAggregator (5 * time.Minute) 2) fullAggregator.
Proof.
  unfold fullAggregator.
  eapply rtc_l; [apply event.step_AddEvent; reflexivity |].
  eapply rtc_l; [apply event.step_AddEvent; reflexivity |].
  apply rtc_refl.
Qed.

Lemma AddEvent_bounded_witness :
  1 <= 2
  /\ Z.of_nat (size (event.aggregated fullAggregator)) <= 2
  /\ forall order now e,
      order ≡ₚ map_to_list (event.aggregated fullAggregator) ->
      Z.of_nat (size (event.aggregated (event.AddEvent order fullAggregator now (Some e)))) <= 2.
Proof.
  assert (Hmax : 1 <= 2) by lia.
  pose proof (AddEvent_bounded (5 * time.Minute) 2 fullAggregator Hmax
                fullAggregator_reachable) as (_ & Hsize & Hadd).
  split; [exact Hmax |]. split; [exact Hsize |].
  intros order now e Hperm. exact (proj1 (Hadd order now e Hperm)).
Defined.

(** The full aggregator receives one more event of the bucket touched last:
    the other bucket is evicted although the event opens no new bucket. *)
Example AddEvent_evicts_for_known_key :
  let a := event.AddEvent (map_to_list (event.aggregated fullAggregator))
             fullAggregator 3 (Some backOffOther) in
  size (event.aggregated fullAggregator) = 2%nat
  /\ event.aggregated a !! "default/BackOff/Pod" = None
  /\ (event.LastSeen <$> event.aggregated a !! "default/Failed/Pod") = Some 3
  /\ (event.Count <$> event.aggregated a !! "default/Failed/Pod") = Some 2.
Proof.
  vm_compute. repeat split; reflexivity.
Qed.

(** ** The resource cache *)

Lemma dispatch_OnUpdate (c : ConfigurableCollector) (oldObj newObj : Unstructured) :
  dispatch (OnUpdate oldObj newObj) c = handleAdd c newObj.
Proof. reflexivity. Qed.

Lemma resources_handleAdd (c : ConfigurableCollector) (obj : Unstructured) :
  resources (handleAdd c obj) = <[resourceKey obj := obj]> (resources c).
Proof. reflexivity. Qed.

Lemma resources_handleDelete (c : ConfigurableCollector) (obj : Unstructured) :
  resources (handleDelete c obj) = delete (resourceKey obj) (resources c).
Proof. reflexivity. Qed.

(** C9. For objects with the same key, [OnUpdate old new] leaves the same
    collector as [OnDelete old] followed by [OnAdd new], with the key bound
    to the new object; and [OnUpdate] is one critical section, so the only
    state that a reader can find once it has started binds the key to the new
    object. *)
Theorem OnUpdate_replaces (c : ConfigurableCollector) (oldObj newObj : Unstructured) :
  resourceKey oldObj = resourceKey newObj ->
  dispatch (OnUpdate oldObj newObj) c = dispatch (OnAdd newObj) (dispatch (OnDelete oldObj) c)
  /\ resources (dispatch (OnUpdate oldObj newObj) c) !! resourceKey oldObj = Some newObj
  /\ visible (sections (OnUpdate oldObj newObj)) c = [dispatch (OnUpdate oldObj newObj) c]
  /\ forall st, st ∈ visible (sections (OnUpdate oldObj newObj)) c ->
       resources st !! resourceKey oldObj = Some newObj.
Proof.
  intros Hkey.
  assert (Hlookup : resources (handleAdd c newObj) !! resourceKey oldObj = Some newObj).
  { rewrite resources_handleAdd, Hkey. apply lookup_insert_eq. }
  split; [| split; [exact Hlookup | split; [reflexivity |]]].
  - cbn. unfold handleUpdate, handleAdd, handleDelete, setResources. cbn.
    rewrite Hkey, insert_delete_eq. reflexivity.
  - intros st Hst. cbn in Hst. apply list_elem_of_singleton in Hst. subst st. exact Hlookup.
Qed.

(** By contrast, a reader can come between [OnDelete] and [OnAdd] and miss
    the key. *)
Lemma OnDelete_OnAdd_gap (c : ConfigurableCollector) (oldObj newObj : Unstructured) :
  exists st, st ∈ visible (sections (OnDelete oldObj) ++ sections (OnAdd newObj)) c
    /\ resources st !! resourceKey oldObj = None.
Proof.
  exists (handleDelete c oldObj). split.
  - cbn. apply list_elem_of_here.
  - rewrite resources_handleDelete. apply lookup_delete_eq.
Qed.

Lemma OnUpdate_replaces_witness :
  let c := handleAdd emptyCollector (resourceWithPhase "Pending") in
  resourceKey (resourceWithPhase "Pending") = "default/db-1"
  /\ resources (dispatch (OnUpdate (resourceWithPhase "Pending") (resourceWithPhase "Running")) c)
     !! "default/db-1" = Some (resourceWithPhase "Running").
Proof.
  intros c.
  assert (Hkey : resourceKey (resourceWithPhase "Pending")
                 = resourceKey (resourceWithPhase "Running")) by reflexivity.
  split; [reflexivity |].
  exact (proj1 (proj2 (OnUpdate_replaces c _ _ Hkey))).
Defined.


(** ** Descriptor construction and unknown metric types *)

Lemma labelNamesFor_known (commonLabelNames : list string) (metricCfg : MetricConfig.t) :
  knownType metricCfg = true -> is_Some (labelNamesFor commonLabelNames metricCfg).
Proof.
  unfold knownType, knownTypes, labelNamesFor. cbn [existsb].
  repeat (destruct (String.eqb (MetricConfig.Type_ metricCfg) _); [eauto |]).
  discriminate.
Qed.

Lemma labelNamesFor_unknown (commonLabelNames : list string) (metricCfg : MetricConfig.t) :
  knownType metricCfg = false -> labelNamesFor commonLabelNames metricCfg = None.
Proof.
  unfold knownType, knownTypes, labelNamesFor. cbn [existsb].
  repeat (destruct (String.eqb (MetricConfig.Type_ metricCfg) _); [discriminate |]).
  reflexivity.
Qed.

Lemma initMetric_unknown (prefix : string) (commonLabelNames : list string)
  (st : gmap string prometheus.Desc * list log.Entry) (metricCfg : MetricConfig.t) :
  knownType metricCfg = false ->
  initMetric prefix commonLabelNames st metricCfg
  = (st.1, st.2 ++ [unknownTypeWarning metricCfg]).
Proof.
  intros Hunknown. destruct st as [descs logged]. unfold initMetric.
  rewrite (labelNamesFor_unknown _ _ Hunknown). reflexivity.
Qed.

Lemma initMetric_known (prefix : string) (commonLabelNames : list string)
  (st : gmap string prometheus.Desc * list log.Entry) (metricCfg : MetricConfig.t) :
  knownType metricCfg = true ->
  exists d, initMetric prefix commonLabelNames st metricCfg
            = (<[MetricConfig.Name metricCfg := d]> st.1, st.2).
Proof.
  intros Hknown. destruct st as [descs logged]. unfold initMetric.
  destruct (labelNamesFor_known commonLabelNames _ Hknown) as [names ->]. eauto.
Qed.

(** The descriptors depend on the metrics of known type alone. *)
Lemma initMetrics_loop_descriptors (prefix : string) (commonLabelNames : list string)
  (metrics : list MetricConfig.t) (st st' : gmap string prometheus.Desc * list log.Entry) :
  st.1 = st'.1 ->
  (fold_left (initMetric prefix commonLabelNames) metrics st).1
  = (fold_left (initMetric prefix commonLabelNames) (List.filter knownType metrics) st').1.
Proof.
  revert st st'. induction metrics as [|m metrics IH]; intros st st' Hst; [exact Hst |].
  cbn [fold_left List.filter]. destruct (knownType m) eqn:Hm.
  - cbn [fold_left]. apply IH.
    destruct (initMetric_known prefix commonLabelNames st m Hm) as [d Hd].
    destruct st as [descs logged], st' as [descs' logged']. cbn in Hst. subst descs'.
    unfold initMetric in *.
    destruct (labelNamesFor commonLabelNames m); [reflexivity | reflexivity].
  - apply IH. rewrite (initMetric_unknown _ _ _ _ Hm). exact Hst.
Qed.

(** The log receives one warning for each metric of unknown type, in order. *)
Lemma initMetrics_loop_log (prefix : string) (commonLabelNames : list string)
  (metrics : list MetricConfig.t) (st : gmap string prometheus.Desc * list log.Entry) :
  (fold_left (initMetric prefix commonLabelNames) metrics st).2
  = st.2 ++ map unknownTypeWarning (List.filter (fun m => negb (knownType m)) metrics).
Proof.
  revert st. induction metrics as [|m metrics IH]; intros st.
  - cbn. rewrite app_nil_r. reflexivity.
  - cbn [fold_left List.filter]. rewrite IH. destruct (knownType m) eqn:Hm; cbn [negb].
    + destruct (initMetric_known prefix commonLabelNames st m Hm) as [d ->]. reflexivity.
    + rewrite (initMetric_unknown _ _ _ _ Hm). cbn [snd map]. rewrite <- app_assoc. reflexivity.
Qed.

Lemma type_unknown_eqb (metricCfg : MetricConfig.t) (ty : string) :
  knownType metricCfg = false -> In ty knownTypes ->
  String.eqb (MetricConfig.Type_ metricCfg) ty = false.
Proof.
  intros Hunknown Hin. unfold knownType in Hunknown.
  destruct (String.eqb (MetricConfig.Type_ metricCfg) ty) eqn:Heq; [| reflexivity].
  rewrite <- Hunknown. symmetry. apply existsb_exists. exists ty. split; assumption.
Qed.

(** C1, as amended. The constructor always returns a collector. Its
    descriptors are those built from the metrics of known type alone, so a
    metric of unknown type has none built for it; the constructor logs one
    warning that carries the type for each such metric and goes on; and at
    scrape time neither pass of [collect] emits anything for such a metric. *)
Theorem unknown_type_skipped {strconv : Strconv} (crd : CRDConfig.t) (metricPrefix : string) :
  descriptors (NewConfigurableCollector crd metricPrefix).1
  = (initMetrics (withMetrics crd (List.filter knownType (CRDConfig.Metrics crd)))
       metricPrefix).1
  /\ (NewConfigurableCollector crd metricPrefix).2
     = map unknownTypeWarning
         (List.filter (fun m => negb (knownType m)) (CRDConfig.Metrics crd))
  /\ forall (c : ConfigurableCollector) (metricCfg : MetricConfig.t),
      knownType metricCfg = false ->
      (forall obj commonLabels, collectResourceMetric c obj commonLabels metricCfg = Ret [])
      /\ collectAggregateMetric c metricCfg = [].
Proof.
  split; [| split].
  - unfold NewConfigurableCollector.
    destruct (initMetrics crd metricPrefix) as [descs logged] eqn:Hinit. cbn [fst descriptors].
    change descs with (descs, logged).1. rewrite <- Hinit.
    unfold initMetrics. cbn [withMetrics CRDConfig.Name CRDConfig.Metrics].
    apply initMetrics_loop_descriptors. reflexivity.
  - unfold NewConfigurableCollector.
    destruct (initMetrics crd metricPrefix) as [descs logged] eqn:Hinit. cbn [snd].
    change logged with (descs, logged).2. rewrite <- Hinit.
    unfold initMetrics. rewrite initMetrics_loop_log. reflexivity.
  - intros c metricCfg Hunknown. split.
    + intros obj commonLabels. unfold collectResourceMetric.
      destruct (descriptors c !! MetricConfig.Name metricCfg); [| reflexivity].
      rewrite !(type_unknown_eqb _ _ Hunknown) by (cbn; tauto). reflexivity.
    + unfold collectAggregateMetric.
      rewrite (type_unknown_eqb _ "count" Hunknown) by (cbn; tauto). reflexivity.
Qed.

(** C1 fails: with a metric of the unknown type ["histogram"] in its
    configuration the collector is constructed all the same, with the
    descriptor of the other metric; the one trace of the unknown type is a
    warning in the log; and a scrape emits the other metric and nothing for
    the unknown one. *)
Lemma unknown_type_not_rejected :
  let r := NewConfigurableCollector histogramConfig "sealos" in
  let c := handleAdd r.1 (resourceWithPhase "Running") in
  knownType (metricOfType "histogram" "latency") = false
  /\ descriptors r.1 !! "phase_count"
     = Some (prometheus.NewDesc "sealos_test_crd_phase_count" "" ["phase"])
  /\ descriptors r.1 !! "latency" = None
  /\ r.2 = [{| log.level := log.WarnLevel; log.message := "Unknown metric type";
               log.fields := [("type", "histogram")] |}]
  /\ collect (strconv := exampleParseFloat) c
     = Ret [prometheus.MustNewConstMetric
              (prometheus.NewDesc "sealos_test_crd_phase_count" "" ["phase"])
              1%float ["Running"]].
Proof.
  vm_compute. repeat split; reflexivity.
Qed.

Lemma unknown_type_skipped_witness :
  (NewConfigurableCollector histogramConfig "sealos").2
  = [unknownTypeWarning (metricOfType "histogram" "latency")]
  /\ collectAggregateMetric
       (NewConfigurableCollector histogramConfig "sealos").1
       (metricOfType "histogram" "latency") = [].
Proof.
  pose proof (unknown_type_skipped (strconv := exampleParseFloat) histogramConfig "sealos")
    as (_ & Hlog & Hscrape).
  split.
  - rewrite Hlog. reflexivity.
  - apply Hscrape. reflexivity.
Defined.

(** ** The path extractor *)

Lemma walk_resolves (v : any) (fields : list string) (r : any) :
  resolves v fields r -> unstructured.walk v fields = (r, true, NoError).
Proof.
  induction 1 as [v | m field rest v r Hlookup _ IH]; [destruct v; reflexivity |].
  cbn. rewrite Hlookup. exact IH.
Qed.

Lemma walk_found (v : any) (fields : list string) (r : any) (e : error) :
  unstructured.walk v fields = (r, true, e) -> resolves v fields r /\ e = NoError.
Proof.
  revert v. induction fields as [|field rest IH]; intros v Hwalk.
  - cbn in Hwalk. injection Hwalk as <- <-. split; [constructor | reflexivity].
  - destruct v; cbn in Hwalk; try discriminate.
    destruct (m !! field) as [v'|] eqn:Hlookup; [| discriminate].
    destruct (IH _ Hwalk) as [Hres He]. split; [| exact He].
    econstructor; eassumption.
Qed.

(** A path that does not resolve is reported as not found. *)
Lemma walk_unresolved (v : any) (fields : list string) :
  (forall r, ~ resolves v fields r) ->
  exists e, unstructured.walk v fields = (ANil, false, e).
Proof.
  intros Hnone.
  destruct (unstructured.walk v fields) as [[r found] e] eqn:Hwalk.
  destruct found.
  - destruct (walk_found _ _ _ _ Hwalk) as [Hres _]. destruct (Hnone _ Hres).
  - exists e. f_equal. f_equal.
    clear Hnone. revert v Hwalk. induction fields as [|field rest IH]; intros v Hwalk.
    + discriminate.
    + destruct v; cbn in Hwalk; try (injection Hwalk as <- _; reflexivity).
      destruct (m !! field) as [v'|]; [exact (IH _ Hwalk) |].
      injection Hwalk as <- _. reflexivity.
Qed.

Lemma jsonCopyable_map (m : gmap string any) :
  unstructured.jsonCopyable (AMap m) = true ->
  forall k v, m !! k = Some v -> unstructured.jsonCopyable v = true.
Proof.
  change (unstructured.jsonCopyable (AMap m))
    with (map_fold (fun (_ : string) v acc => unstructured.jsonCopyable v && acc) true m).
  apply (map_fold_weak_ind
           (fun r m => r = true ->
                       forall k v, m !! k = Some v -> unstructured.jsonCopyable v = true)).
  - intros _ k v Hk. rewrite lookup_empty in Hk. discriminate.
  - intros i x m' r Hfresh IH Hand k v Hk.
    apply andb_prop in Hand as [Hx Hr].
    destruct (decide (i = k)) as [->|Hne].
    + rewrite lookup_insert_eq in Hk. injection Hk as <-. exact Hx.
    + rewrite lookup_insert_ne in Hk by exact Hne. exact (IH Hr k v Hk).
Qed.

Lemma jsonCopyable_resolves (v : any) (fields : list string) (r : any) :
  resolves v fields r ->
  unstructured.jsonCopyable v = true -> unstructured.jsonCopyable r = true.
Proof.
  induction 1 as [v | m field rest v r Hlookup _ IH]; intros Hjson; [exact Hjson |].
  apply IH. exact (jsonCopyable_map m Hjson field v Hlookup).
Qed.

Lemma extractFieldString_at (obj : Unstructured) (path : string) (r : any) :
  at_path obj path r ->
  extractFieldString obj path = match r with AString s => s | _ => "" end.
Proof.
  intros [Hpath Hres]. unfold extractFieldString.
  destruct (decide (path = "")) as [Hempty|_]; [contradiction |].
  unfold unstructured.NestedString, unstructured.NestedFieldNoCopy.
  rewrite (walk_resolves _ _ _ Hres). destruct r; reflexivity.
Qed.

Lemma extractFieldFloat_at {strconv : Strconv} (obj : Unstructured) (path : string) (r : any) :
  at_path obj path r -> extractFieldFloat obj path = toFloat64 r.
Proof.
  intros [Hpath Hres]. unfold extractFieldFloat.
  destruct (decide (path = "")) as [Hempty|_]; [contradiction |].
  unfold unstructured.NestedFieldNoCopy.
  rewrite (walk_resolves _ _ _ Hres). reflexivity.
Qed.

Lemma extractFieldMap_at (obj : Unstructured) (path : string) (r : any) :
  at_path obj path r -> unstructured.jsonCopyable r = true ->
  extractFieldMap obj path = Ret (match r with AMap m => Some m | _ => None end).
Proof.
  intros [Hpath Hres] Hjson. unfold extractFieldMap.
  destruct (decide (path = "")) as [Hempty|_]; [contradiction |].
  unfold unstructured.NestedMap, unstructured.NestedFieldNoCopy.
  rewrite (walk_resolves _ _ _ Hres). cbn [negb orb failed].
  destruct r; try reflexivity.
  unfold unstructured.DeepCopyJSONValue. rewrite Hjson. reflexivity.
Qed.

Lemma extractFieldSlice_at (obj : Unstructured) (path : string) (r : any) :
  at_path obj path r -> unstructured.jsonCopyable r = true ->
  extractFieldSlice obj path = Ret (match r with ASlice l => Some l | _ => None end).
Proof.
  intros [Hpath Hres] Hjson. unfold extractFieldSlice.
  destruct (decide (path = "")) as [Hempty|_]; [contradiction |].
  unfold unstructured.NestedSlice, unstructured.NestedFieldNoCopy.
  rewrite (walk_resolves _ _ _ Hres). cbn [negb orb failed].
  destruct r; try reflexivity.
  unfold unstructured.DeepCopyJSONValue. rewrite Hjson. reflexivity.
Qed.

(** What the four extractors return when the path is empty or does not
    resolve. *)
Lemma extract_zero {strconv : Strconv} (obj : Unstructured) (path : string) :
  (path = "" \/ forall r, ~ resolves (AMap (Object obj)) (Split "." path) r) ->
  extractFieldString obj path = ""
  /\ extractFieldFloat obj path = 0%float
  /\ extractFieldMap obj path = Ret None
  /\ extractFieldSlice obj path = Ret None.
Proof.
  intros Hpath.
  unfold extractFieldString, extractFieldFloat, extractFieldMap, extractFieldSlice.
  destruct (decide (path = "")) as [Hempty|Hne]; [repeat split; reflexivity |].
  destruct Hpath as [Hempty|Hnone]; [contradiction |].
  unfold unstructured.NestedString, unstructured.NestedMap, unstructured.NestedSlice,
    unstructured.NestedFieldNoCopy.
  destruct (walk_unresolved _ _ Hnone) as [e ->]. cbn.
  destruct e; repeat split; reflexivity.
Qed.

Lemma extract_total (obj : Unstructured) (path : string) :
  json_object obj ->
  (exists m, extractFieldMap obj path = Ret m)
  /\ (exists l, extractFieldSlice obj path = Ret l).
Proof.
  intros Hjson. unfold extractFieldMap, extractFieldSlice.
  destruct (decide (path = "")) as [Hempty|Hne]; [split; eauto |].
  unfold unstructured.NestedMap, unstructured.NestedSlice, unstructured.NestedFieldNoCopy.
  destruct (unstructured.walk (AMap (Object obj)) (Split "." path)) as [[r found] e] eqn:Hwalk.
  destruct found; cbn [negb orb].
  - destruct (walk_found _ _ _ _ Hwalk) as [Hres ->]. cbn [failed].
    pose proof (jsonCopyable_resolves _ _ _ Hres Hjson) as Hr.
    unfold unstructured.DeepCopyJSONValue.
    destruct r; try (split; eauto); rewrite Hr; eauto.
  - destruct e; split; eauto.
Qed.

Lemma unresolved_by_walk (v : any) (fields : list string) :
  (unstructured.walk v fields).1.2 = false -> forall r, ~ resolves v fields r.
Proof.
  intros Hwalk r Hres. rewrite (walk_resolves _ _ _ Hres) in Hwalk. discriminate.
Qed.

(** C8, as amended. The four extractors return the zero value of their type
    when the path is empty or does not resolve; on an object of JSON kinds
    the map and slice extractors return and do not panic (the string and
    float extractors are total on every object); at a path that resolves the
    float extractor converts the value found; and [toFloat64] returns a
    [float64] or [float32] as it is, converts an integer of any of the six
    integer kinds, maps [true] to 1 and [false] to 0, returns what
    [strconv.ParseFloat] returns for a string, its error discarded (0 after a
    syntax error, an infinity after a range error), and returns 0 for every
    other value. *)
Theorem extraction_fail_soft {strconv : Strconv} (obj : Unstructured) (path : string) :
  ((path = "" \/ forall r, ~ resolves (AMap (Object obj)) (Split "." path) r) ->
   extractFieldString obj path = ""
   /\ extractFieldFloat obj path = 0%float
   /\ extractFieldMap obj path = Ret None
   /\ extractFieldSlice obj path = Ret None)
  /\ (json_object obj ->
      (exists m, extractFieldMap obj path = Ret m)
      /\ (exists l, extractFieldSlice obj path = Ret l))
  /\ (forall r, at_path obj path r -> extractFieldFloat obj path = toFloat64 r)
  /\ (forall f, toFloat64 (AFloat64 f) = f)
  /\ (forall f, toFloat64 (AFloat32 f) = f)
  /\ (forall z, toFloat64 (AInt z) = float64_of_Z z
                /\ toFloat64 (AInt32 z) = float64_of_Z z
                /\ toFloat64 (AInt64 z) = float64_of_Z z
                /\ toFloat64 (AUint z) = float64_of_Z z
                /\ toFloat64 (AUint32 z) = float64_of_Z z
                /\ toFloat64 (AUint64 z) = float64_of_Z z)
  /\ toFloat64 (ABool true) = 1%float
  /\ toFloat64 (ABool false) = 0%float
  /\ (forall s, toFloat64 (AString s) = ParseFloat_value (ParseFloat s))
  /\ (forall s, ParseFloat s = ErrSyntax -> toFloat64 (AString s) = 0%float)
  /\ (forall s negative, ParseFloat s = ErrRange negative ->
        toFloat64 (AString s) = if negative then neg_infinity else infinity)
  /\ toFloat64 ANil = 0%float
  /\ (forall m, toFloat64 (AMap m) = 0%float)
  /\ (forall l, toFloat64 (ASlice l) = 0%float).
Proof.
  split; [apply extract_zero |].
  split; [apply extract_total |].
  split; [apply extractFieldFloat_at |].
  repeat (split; [reflexivity |]).
  split; [intros z; repeat split; reflexivity |].
  repeat (split; [reflexivity |]).
  split; [intros s Hs; cbn; rewrite Hs; reflexivity |].
  split; [intros s negative Hs; cbn; rewrite Hs; reflexivity |].
  repeat split; reflexivity.
Qed.

Lemma extraction_fail_soft_witness :
  extractFieldString (resourceWithPhase "Running") "status.replicas" = ""
  /\ extractFieldFloat (strconv := exampleParseFloat)
       (resourceWithPhase "Running") "status.phase.reason" = 0%float
  /\ (exists m, extractFieldMap (resourceWithPhase "Running") "status" = Ret m)
  /\ toFloat64 (strconv := exampleParseFloat) (AString "abc") = 0%float.
Proof.
  pose proof (extraction_fail_soft (strconv := exampleParseFloat)
                (resourceWithPhase "Running") "status.replicas") as (Habsent & _).
  pose proof (extraction_fail_soft (strconv := exampleParseFloat)
                (resourceWithPhase "Running") "status.phase.reason") as (Hscalar & _).
  pose proof (extraction_fail_soft (strconv := exampleParseFloat)
                (resourceWithPhase "Running") "status")
    as (_ & Htotal & _ & _ & _ & _ & _ & _ & _ & Hsyntax & _).
  split; [| split; [| split]].
  - apply Habsent. right. apply unresolved_by_walk. reflexivity.
  - apply Hscalar. right. apply unresolved_by_walk. reflexivity.
  - apply Htotal. reflexivity.
  - apply Hsyntax. reflexivity.
Defined.

(** Outside the JSON kinds the deep copy made by [NestedMap] panics, and so
    does the map extractor; the float extractor, which copies nothing, still
    converts the value. *)
Example extractFieldMap_outside_json :
  extractFieldMap intResource "status" = Panic "cannot deep copy"
  /\ extractFieldFloat (strconv := exampleParseFloat) intResource "status.replicas" = 3%float
  /\ ~ json_object intResource.
Proof.
  split; [reflexivity |]. split; [reflexivity |].
  unfold json_object. intros Hjson. vm_compute in Hjson. discriminate.
Qed.

(** C8 fails on a string that is out of range: [strconv.ParseFloat] reports
    the failure with [ErrRange] next to [+Inf], and [toFloat64], which drops
    the error, returns [+Inf] and not 0. *)
Lemma toFloat64_range_error_not_zero :
  ParseFloat (Strconv := exampleParseFloat) "1e999" = ErrRange false
  /\ ParseFloat_failed (ParseFloat (Strconv := exampleParseFloat) "1e999") = true
  /\ toFloat64 (strconv := exampleParseFloat) (AString "1e999") = infinity
  /\ infinity <> 0%float.
Proof.
  split; [reflexivity |]. split; [reflexivity |]. split; [reflexivity |].
  intros Heq. apply (f_equal PrimFloat.classify) in Heq. vm_compute in Heq. discriminate.
Qed.

(** ** The count strategy *)

Lemma withValue_insert_same (res : gmap string Unstructured) (path : string)
  (i : string) (x : Unstructured) :
  res !! i = None ->
  size (withValue (<[i := x]> res) path (extractFieldString x path))
  = S (size (withValue res path (extractFieldString x path))).
Proof.
  intros Hfresh. unfold withValue.
  rewrite map_filter_insert_True by reflexivity.
  apply map_size_insert_None. apply map_lookup_filter_None. left. exact Hfresh.
Qed.

Lemma withValue_insert_other (res : gmap string Unstructured) (path v : string)
  (i : string) (x : Unstructured) :
  res !! i = None -> extractFieldString x path <> v ->
  withValue (<[i := x]> res) path v = withValue res path v.
Proof.
  intros Hfresh Hne. unfold withValue.
  apply map_filter_insert_not'; [exact Hne |].
  intros y Hy. rewrite Hfresh in Hy. discriminate.
Qed.

(** The map that the first loop of [collectCountMetric] builds. *)
Lemma countValues_lookup (res : gmap string Unstructured) (path v : string) :
  countValues res path !! v = countEntry v (size (withValue res path v)).
Proof.
  unfold countValues. revert v.
  apply (map_fold_weak_ind
           (fun counts res =>
              forall v, counts !! v = countEntry v (size (withValue res path v)))).
  - intros v. unfold withValue. rewrite map_filter_empty, map_size_empty, lookup_empty.
    unfold countEntry. destruct (decide (v = "")); reflexivity.
  - intros i x m counts Hfresh IH v. unfold countValue.
    destruct (decide (extractFieldString x path <> "")) as [Hval|Hval].
    + destruct (decide (extractFieldString x path = v)) as [<-|Hne].
      * rewrite lookup_insert_eq, IH, withValue_insert_same by exact Hfresh.
        unfold countEntry. rewrite !decide_False by exact Hval.
        destruct (size (withValue m path (extractFieldString x path))); reflexivity.
      * rewrite lookup_insert_ne by exact Hne.
        rewrite withValue_insert_other by assumption. apply IH.
    + apply dec_stable in Hval.
      destruct (decide (v = "")) as [->|Hv].
      * rewrite IH. unfold countEntry. rewrite !decide_True by reflexivity. reflexivity.
      * rewrite withValue_insert_other by (try assumption; congruence). apply IH.
Qed.

(** C4. The count strategy emits one tuple for each non-empty string value
    found at the path in some cached object and no other tuple; the value of
    the tuple labelled [v] is the counter incremented once for each cached
    object whose extracted value is [v]; no two tuples carry the same label;
    nothing is emitted under the empty label, which is what the extractor
    returns for an object whose value at the path is empty, missing or not a
    string; and such an object is counted for no tuple. *)
Theorem count_metric_tuples (c : ConfigurableCollector) (d : prometheus.Desc)
  (cfg : MetricConfig.t) :
  let count := fun v => size (withValue (resources c) (MetricConfig.Path cfg) v) in
  (forall metric,
      metric ∈ collectCountMetric c d cfg <->
      exists v, v <> "" /\ (0 < count v)%nat
                /\ metric = prometheus.MustNewConstMetric d (floatCount (count v)) [v])
  /\ NoDup (map prometheus.labelValues (collectCountMetric c d cfg))
  /\ (forall metric, metric ∈ collectCountMetric c d cfg ->
        prometheus.labelValues metric <> [""])
  /\ length (collectCountMetric c d cfg)
     = size (countValues (resources c) (MetricConfig.Path cfg))
  /\ (forall k obj v,
        resources c !! k = Some obj ->
        extractFieldString obj (MetricConfig.Path cfg) = "" ->
        v <> "" ->
        withValue (resources c) (MetricConfig.Path cfg) v !! k = None).
Proof.
  intros count.
  assert (Hmem : forall metric,
             metric ∈ collectCountMetric c d cfg <->
             exists v, v <> "" /\ (0 < count v)%nat
                       /\ metric = prometheus.MustNewConstMetric d (floatCount (count v)) [v]).
  { intros metric. unfold collectCountMetric. rewrite list_elem_of_In, in_map_iff. split.
    - intros ([v n] & <- & Hin). apply list_elem_of_In, elem_of_map_to_list in Hin.
      rewrite countValues_lookup in Hin. fold (count v) in Hin. unfold countEntry in Hin.
      destruct (decide (v = "")) as [|Hv]; [discriminate |].
      destruct (count v) as [|k] eqn:Hk; [discriminate |].
      injection Hin as <-. exists v. rewrite Hk. split; [exact Hv |]. split; [lia | reflexivity].
    - intros (v & Hv & Hpos & ->). exists (v, floatCount (count v)). split; [reflexivity |].
      apply list_elem_of_In, elem_of_map_to_list. rewrite countValues_lookup.
      fold (count v). unfold countEntry. rewrite decide_False by exact Hv.
      destruct (count v); [lia | reflexivity]. }
  split; [exact Hmem |]. split; [| split; [| split]].
  - unfold collectCountMetric. rewrite map_map.
    pose proof (NoDup_fst_map_to_list
                  (countValues (resources c) (MetricConfig.Path cfg))) as Hnodup.
    apply (NoDup_fmap_2 (fun v : string => [v])) in Hnodup.
    rewrite <- list_fmap_compose in Hnodup.
    erewrite map_ext; [exact Hnodup |]. intros [v n]. reflexivity.
  - intros metric Hin. apply Hmem in Hin as (v & Hv & _ & ->). cbn. congruence.
  - unfold collectCountMetric. rewrite length_map. apply length_map_to_list.
  - intros k obj v Hk Hempty Hv. apply map_lookup_filter_None. right.
    intros obj' Hobj'. rewrite Hk in Hobj'. injection Hobj' as <-. cbn. congruence.
Qed.

(** The counter is the number of increments itself, here checked for every
    count up to 4096 (a [float64] holds every integer up to 2^53). *)
Lemma floatCount_exact (n : nat) :
  (n <= 4096)%nat -> floatCount n = float64_of_Z (Z.of_nat n).
Proof.
  intros Hn.
  assert (Hall : map floatCount (seq 0 4097)
                 = map (fun k => float64_of_Z (Z.of_nat k)) (seq 0 4097))
    by (vm_compute; reflexivity).
  apply (proj1 map_ext_in_iff Hall). apply in_seq. lia.
Qed.

Lemma count_metric_tuples_witness :
  prometheus.MustNewConstMetric phaseDesc 3%float ["A"]
  ∈ collectCountMetric phaseCache phaseDesc (metricOfType "count" "phase_count").
Proof.
  pose proof (count_metric_tuples phaseCache phaseDesc (metricOfType "count" "phase_count"))
    as Hcount.
  cbv zeta in Hcount. destruct Hcount as (Hmem & _).
  assert (Hthree : size (withValue (resources phaseCache) "status.phase" "A") = 3%nat)
    by (vm_compute; reflexivity).
  apply Hmem. exists "A". cbn [MetricConfig.Path metricOfType]. rewrite Hthree.
  split; [discriminate |]. split; [lia | reflexivity].
Defined.

Example count_metric_example :
  let d := phaseDesc in
  descriptors phaseCache !! "phase_count" = Some d
  /\ size (resources phaseCache) = 8%nat
  /\ collectCountMetric phaseCache d (metricOfType "count" "phase_count")
     ≡ₚ [prometheus.MustNewConstMetric d 3%float ["A"];
         prometheus.MustNewConstMetric d 2%float ["B"];
         prometheus.MustNewConstMetric d 1%float ["C"]].
Proof.
  split; [vm_compute; reflexivity |]. split; [vm_compute; reflexivity |].
  match goal with
  | |- ?out ≡ₚ _ => let v := eval vm_compute in out in change out with v
  end.
  cbv zeta. unfold prometheus.MustNewConstMetric, prometheus.NewDesc.
  solve_Permutation.
Qed.

(** ** The per-entry strategies *)

(** A loop over a map that emits one tuple for each entry with [p] and none
    for the others emits as many tuples as there are entries with [p]. *)
Lemma emitted_per_entry {A B : Type} (f : string * A -> list B) (p : string * A -> Prop)
  `{!forall x, Decision (p x)} (m : gmap string A) :
  (forall x, length (f x) = if decide (p x) then 1%nat else 0%nat) ->
  length (flat_map f (map_to_list m)) = size (filter p m).
Proof.
  intros Hf. induction m as [|i x m Hfresh IH] using map_ind.
  - rewrite map_to_list_empty, map_filter_empty, map_size_empty. reflexivity.
  - rewrite (Permutation_length
               (Permutation_flat_map f (map_to_list_insert m i x Hfresh))).
    cbn [flat_map]. rewrite length_app, IH, Hf, map_filter_insert.
    destruct (decide (p (i, x))).
    + rewrite map_size_insert_None; [reflexivity |].
      apply map_lookup_filter_None. left. exact Hfresh.
    + rewrite delete_id by exact Hfresh. reflexivity.
Qed.

Lemma fieldString_nonempty (field : string) (data : any) (s : string) :
  (fieldString field data = s /\ s <> "")
  <-> exists m, data = AMap m /\ m !! field = Some (AString s) /\ s <> "".
Proof.
  split.
  - intros [Hs Hne]. destruct data; cbn in Hs; try congruence.
    destruct (m !! field) as [[]|] eqn:Hf; try congruence. subst. eauto.
  - intros (m & -> & Hf & Hne). cbn. rewrite Hf. split; [reflexivity | exact Hne].
Qed.

Lemma mapStateEntry_fieldString (d : prometheus.Desc) (cfg : MetricConfig.t)
  (commonLabels : list string) (key : string) (entryData : any) :
  mapStateEntry d cfg commonLabels (key, entryData)
  = if decide (fieldString (MetricConfig.ValuePath cfg) entryData = "") then []
    else [prometheus.MustNewConstMetric d 1%float
            (commonLabels ++ [key; fieldString (MetricConfig.ValuePath cfg) entryData])].
Proof.
  unfold mapStateEntry, fieldString. destruct entryData; try reflexivity.
Qed.

(** C5. For an object of JSON kinds whose value at the configured path is
    the map [m], the map_state strategy returns, and emits as many tuples as
    [m] has entries with a non-empty string state under [valuePath] (at most
    the number of entries of [m]); the tuples are exactly, for each such
    entry, the common labels followed by the key and the state; and each has
    the value 1. *)
Theorem map_state_tuples (d : prometheus.Desc) (obj : Unstructured) (cfg : MetricConfig.t)
  (commonLabels : list string) (m : gmap string any) :
  json_object obj ->
  at_path obj (MetricConfig.Path cfg) (AMap m) ->
  exists out,
    collectMapStateMetric d obj cfg commonLabels = Ret out
    /\ length out = size (filter (hasState (MetricConfig.ValuePath cfg)) m)
    /\ (length out <= size m)%nat
    /\ (forall metric,
          metric ∈ out <->
          exists key entryMap state,
            m !! key = Some (AMap entryMap)
            /\ entryMap !! MetricConfig.ValuePath cfg = Some (AString state)
            /\ state <> ""
            /\ metric = prometheus.MustNewConstMetric d 1%float
                          (commonLabels ++ [key; state]))
    /\ (forall metric, metric ∈ out -> prometheus.value metric = 1%float).
Proof.
  intros Hjson Hat.
  assert (Hcopy : unstructured.jsonCopyable (AMap m) = true).
  { destruct Hat as [_ Hres]. exact (jsonCopyable_resolves _ _ _ Hres Hjson). }
  exists (flat_map (mapStateEntry d cfg commonLabels) (map_to_list m)).
  assert (Hmem : forall metric,
             metric ∈ flat_map (mapStateEntry d cfg commonLabels) (map_to_list m) <->
             exists key entryMap state,
               m !! key = Some (AMap entryMap)
               /\ entryMap !! MetricConfig.ValuePath cfg = Some (AString state)
               /\ state <> ""
               /\ metric = prometheus.MustNewConstMetric d 1%float
                             (commonLabels ++ [key; state])).
  { intros metric. rewrite list_elem_of_In, in_flat_map. split.
    - intros ([key entryData] & Hin & Hmetric).
      apply list_elem_of_In, elem_of_map_to_list in Hin.
      rewrite mapStateEntry_fieldString in Hmetric.
      destruct (decide (fieldString (MetricConfig.ValuePath cfg) entryData = ""))
        as [|Hstate]; [destruct Hmetric |].
      destruct Hmetric as [<-|[]].
      destruct (proj1 (fieldString_nonempty _ entryData _) (conj eq_refl Hstate))
        as (entryMap & -> & Hfield & _).
      exists key, entryMap, (fieldString (MetricConfig.ValuePath cfg) (AMap entryMap)).
      repeat split; assumption.
    - intros (key & entryMap & state & Hkey & Hfield & Hstate & ->).
      exists (key, AMap entryMap). split.
      + apply list_elem_of_In, elem_of_map_to_list. exact Hkey.
      + cbn. rewrite Hfield. rewrite decide_False by exact Hstate. left. reflexivity. }
  assert (Hlen : length (flat_map (mapStateEntry d cfg commonLabels) (map_to_list m))
                 = size (filter (hasState (MetricConfig.ValuePath cfg)) m)).
  { apply emitted_per_entry. intros [key entryData].
    rewrite mapStateEntry_fieldString. unfold hasState. cbn [snd].
    destruct (decide (fieldString (MetricConfig.ValuePath cfg) entryData = "")) as [He|He].
    - rewrite decide_False by (intros Hn; exact (Hn He)). reflexivity.
    - rewrite decide_True by exact He. reflexivity. }
  split; [| split; [exact Hlen | split; [| split; [exact Hmem |]]]].
  - unfold collectMapStateMetric. rewrite (extractFieldMap_at obj _ _ Hat Hcopy). reflexivity.
  - rewrite Hlen. apply map_size_filter.
  - intros metric Hin. apply Hmem in Hin as (key & entryMap & state & _ & _ & _ & ->).
    reflexivity.
Qed.

Lemma map_state_tuples_witness :
  size components = 3%nat
  /\ size (filter (hasState "phase") components) = 1%nat
  /\ collectMapStateMetric componentsDesc componentsResource
       (componentsConfig "map_state" "phase") ["cluster-1"]
     = Ret [prometheus.MustNewConstMetric componentsDesc 1%float
              ["cluster-1"; "web"; "Running"]].
Proof.
  assert (Hjson : json_object componentsResource) by reflexivity.
  assert (Hat : at_path componentsResource
                  (MetricConfig.Path (componentsConfig "map_state" "phase"))
                  (AMap components)).
  { split; [discriminate |]. apply walk_found with (e := NoError). reflexivity. }
  destruct (map_state_tuples componentsDesc componentsResource
              (componentsConfig "map_state" "phase") ["cluster-1"] components Hjson Hat)
    as (out & Hout & Hlen & _).
  split; [reflexivity |]. split; [reflexivity |].
  rewrite Hout. f_equal.
  assert (Hcomputed : Ret out
                      = Ret [prometheus.MustNewConstMetric componentsDesc 1%float
                               ["cluster-1"; "web"; "Running"]]).
  { rewrite <- Hout. vm_compute. reflexivity. }
  injection Hcomputed as ->. reflexivity.
Defined.

(** C6, as amended. For an object of JSON kinds whose value at the
    configured path is the map [m], the map_gauge strategy returns, and emits
    one tuple for each entry of [m] that is itself a map and none for any
    other entry; the tuple of such an entry carries the common labels
    followed by the key, and its value is [toFloat64] of the value found
    under [valuePath] in the entry, or 0 when the entry has no such key. *)
Theorem map_gauge_tuples {strconv : Strconv} (d : prometheus.Desc) (obj : Unstructured)
  (cfg : MetricConfig.t) (commonLabels : list string) (m : gmap string any) :
  json_object obj ->
  at_path obj (MetricConfig.Path cfg) (AMap m) ->
  exists out,
    collectMapGaugeMetric d obj cfg commonLabels = Ret out
    /\ length out = size (filter isMapEntry m)
    /\ ((forall key entryData, m !! key = Some entryData -> isMapEntry (key, entryData)) ->
        length out = size m)
    /\ (forall metric,
          metric ∈ out <->
          exists key entryMap,
            m !! key = Some (AMap entryMap)
            /\ metric = prometheus.MustNewConstMetric d
                          (match entryMap !! MetricConfig.ValuePath cfg with
                           | Some rawValue => toFloat64 rawValue
                           | None => 0%float
                           end)
                          (commonLabels ++ [key])).
Proof.
  intros Hjson Hat.
  assert (Hcopy : unstructured.jsonCopyable (AMap m) = true).
  { destruct Hat as [_ Hres]. exact (jsonCopyable_resolves _ _ _ Hres Hjson). }
  exists (flat_map (mapGaugeEntry d cfg commonLabels) (map_to_list m)).
  assert (Hlen : length (flat_map (mapGaugeEntry d cfg commonLabels) (map_to_list m))
                 = size (filter isMapEntry m)).
  { apply emitted_per_entry. intros [key entryData].
    unfold mapGaugeEntry, isMapEntry. cbn [snd].
    destruct entryData; reflexivity. }
  split; [| split; [exact Hlen | split]].
  - unfold collectMapGaugeMetric. rewrite (extractFieldMap_at obj _ _ Hat Hcopy). reflexivity.
  - intros Hall. rewrite Hlen. f_equal. apply map_filter_id.
    intros key entryData Hkey. exact (Hall key entryData Hkey).
  - intros metric. rewrite list_elem_of_In, in_flat_map. split.
    + intros ([key entryData] & Hin & Hmetric).
      apply list_elem_of_In, elem_of_map_to_list in Hin.
      destruct entryData; cbn in Hmetric; try destruct Hmetric.
      * subst metric. eauto.
      * contradiction.
    + intros (key & entryMap & Hkey & ->).
      exists (key, AMap entryMap). split.
      * apply list_elem_of_In, elem_of_map_to_list. exact Hkey.
      * cbn. left. reflexivity.
Qed.

Lemma map_gauge_tuples_witness :
  size (filter isMapEntry components) = 2%nat
  /\ exists out,
      collectMapGaugeMetric (strconv := exampleParseFloat) componentsDesc componentsResource
        (componentsConfig "map_gauge" "replicas") ["cluster-1"] = Ret out
      /\ length out = 2%nat.
Proof.
  assert (Hjson : json_object componentsResource) by reflexivity.
  assert (Hat : at_path componentsResource
                  (MetricConfig.Path (componentsConfig "map_gauge" "replicas"))
                  (AMap components)).
  { split; [discriminate |]. apply walk_found with (e := NoError). reflexivity. }
  destruct (map_gauge_tuples (strconv := exampleParseFloat) componentsDesc componentsResource
              (componentsConfig "map_gauge" "replicas") ["cluster-1"] components Hjson Hat)
    as (out & Hout & Hlen & _).
  assert (Hsize : size (filter isMapEntry components) = 2%nat) by reflexivity.
  split; [exact Hsize |].
  exists out. split; [exact Hout |]. rewrite Hlen. exact Hsize.
Defined.

(** C6 fails when an entry of the map is not itself a map: of the three
    entries under [status.components] the string entry yields no tuple, so
    two tuples are emitted and not three. *)
Lemma map_gauge_skips_non_map_entries :
  extractFieldMap componentsResource "status.components" = Ret (Some components)
  /\ size components = 3%nat
  /\ components !! "note" = Some (AString "n/a")
  /\ collectMapGaugeMetric (strconv := exampleParseFloat) componentsDesc componentsResource
       (componentsConfig "map_gauge" "replicas") ["cluster-1"]
     = Ret [prometheus.MustNewConstMetric componentsDesc 3%float ["cluster-1"; "web"];
            prometheus.MustNewConstMetric componentsDesc 1%float ["cluster-1"; "db"]].
Proof.
  vm_compute. repeat split; reflexivity.
Qed.

(** ** The conditions strategy *)

Lemma conditionEntry_fieldString (d : prometheus.Desc) (typeField statusField reasonField : string)
  (commonLabels : list string) (condData : any) :
  conditionEntry d typeField statusField reasonField commonLabels condData
  = if decide (fieldString typeField condData = "") then []
    else [prometheus.MustNewConstMetric d
            (if EqualFold (fieldString statusField condData) "true" then 1%float else 0%float)
            (commonLabels ++ [fieldString typeField condData;
                              fieldString statusField condData;
                              fieldString reasonField condData])].
Proof.
  unfold conditionEntry, fieldString. destruct condData; reflexivity.
Qed.

Lemma EqualFold_true (s : string) : EqualFold s "true" = true <-> ToLower s = "true".
Proof. unfold EqualFold. apply String.eqb_eq. Qed.

(** C7. For an object of JSON kinds whose value at the configured path is
    the slice [conditions], the conditions strategy returns the tuples of the
    elements in order, where an element whose type field is missing, empty or
    not a string (or that is not a map) yields no tuple, and any other
    element yields one tuple, labelled with the common labels, the type, the
    status and the reason, whose value is 1 when the status is ["true"] up
    to the case of its letters and 0 for every other status, the empty one
    included. *)
Theorem conditions_tuples (d : prometheus.Desc) (obj : Unstructured) (cfg : MetricConfig.t)
  (commonLabels : list string) (conditions : list any) :
  json_object obj ->
  at_path obj (MetricConfig.Path cfg) (ASlice conditions) ->
  let typeField := (conditionFields cfg).1.1 in
  let statusField := (conditionFields cfg).1.2 in
  let reasonField := (conditionFields cfg).2 in
  let tuples := conditionEntry d typeField statusField reasonField commonLabels in
  collectConditionsMetric d obj cfg commonLabels = Ret (flat_map tuples conditions)
  /\ (forall cond, fieldString typeField cond = "" -> tuples cond = [])
  /\ (forall cond,
        fieldString typeField cond <> "" ->
        exists v,
          tuples cond
          = [prometheus.MustNewConstMetric d v
               (commonLabels ++ [fieldString typeField cond; fieldString statusField cond;
                                 fieldString reasonField cond])]
          /\ (ToLower (fieldString statusField cond) = "true" -> v = 1%float)
          /\ (ToLower (fieldString statusField cond) <> "true" -> v = 0%float))
  /\ ToLower "True" = "true" /\ ToLower "TRUE" = "true" /\ ToLower "tRuE" = "true"
  /\ ToLower "" <> "true" /\ ToLower "False" <> "true" /\ ToLower "Unknown" <> "true".
Proof.
  intros Hjson Hat typeField statusField reasonField tuples.
  assert (Hcopy : unstructured.jsonCopyable (ASlice conditions) = true).
  { destruct Hat as [_ Hres]. exact (jsonCopyable_resolves _ _ _ Hres Hjson). }
  split; [| split; [| split]].
  - unfold collectConditionsMetric, tuples, typeField, statusField, reasonField.
    destruct (conditionFields cfg) as [[tf sf] rf]. cbn [fst snd].
    rewrite (extractFieldSlice_at obj _ _ Hat Hcopy). reflexivity.
  - intros cond Htype. unfold tuples. rewrite conditionEntry_fieldString.
    rewrite decide_True by exact Htype. reflexivity.
  - intros cond Htype. unfold tuples. rewrite conditionEntry_fieldString.
    rewrite decide_False by exact Htype.
    eexists. split; [reflexivity |].
    destruct (EqualFold (fieldString statusField cond) "true") eqn:Hfold.
    + split; [reflexivity |]. intros Hne. apply EqualFold_true in Hfold. contradiction.
    + split; [| reflexivity]. intros Heq. apply EqualFold_true in Heq. congruence.
  - repeat split; try reflexivity; discriminate.
Qed.

Lemma conditions_tuples_witness :
  collectConditionsMetric conditionsDesc conditionsResource conditionsConfig ["cluster-1"]
  = Ret [prometheus.MustNewConstMetric conditionsDesc 1%float
           ["cluster-1"; "Ready"; "True"; "AllReady"];
         prometheus.MustNewConstMetric conditionsDesc 0%float
           ["cluster-1"; "Progressing"; "False"; "Complete"];
         prometheus.MustNewConstMetric conditionsDesc 0%float
           ["cluster-1"; "Synced"; ""; ""]].
Proof.
  assert (Hjson : json_object conditionsResource) by reflexivity.
  assert (Hat : at_path conditionsResource (MetricConfig.Path conditionsConfig)
                  (ASlice conditionsList)).
  { split; [discriminate |]. apply walk_found with (e := NoError). reflexivity. }
  destruct (conditions_tuples conditionsDesc conditionsResource conditionsConfig
              ["cluster-1"] conditionsList Hjson Hat) as (Hout & _).
  rewrite Hout. vm_compute. reflexivity.
Defined.

(** * Further properties *)

(** ** [sanitizeName] *)

Lemma sanitizeName_unfold (name : string) :
  sanitizeName name = ToLower (Map sanitizeRune name).
Proof. reflexivity. Qed.

Lemma sanitizeRune_name_byte (r : Z) : isNameByte (lowerByte (sanitizeRune r)) = true.
Proof.
  unfold sanitizeRune.
  destruct (((97 <=? r) && (r <=? 122)) || ((65 <=? r) && (r <=? 90))
            || ((48 <=? r) && (r <=? 57)) || (r =? 95)) eqn:Hr; [| reflexivity].
  assert (Hrange : 0 <= r < 128) by lia.
  assert (Hascii : forallb (fun n =>
                      negb (((97 <=? Z.of_nat n) && (Z.of_nat n <=? 122))
                            || ((65 <=? Z.of_nat n) && (Z.of_nat n <=? 90))
                            || ((48 <=? Z.of_nat n) && (Z.of_nat n <=? 57))
                            || (Z.of_nat n =? 95))
                      || isNameByte (lowerByte (ascii_of_N (Z.to_N (Z.of_nat n)))))
                      (seq 0 128) = true) by (vm_compute; reflexivity).
  rewrite forallb_forall in Hascii.
  specialize (Hascii (Z.to_nat r)). rewrite Z2Nat.id in Hascii by lia.
  rewrite Hr in Hascii. apply Hascii. apply in_seq. lia.
Qed.

Lemma MapFrom_name_bytes (skip : nat) (s : string) :
  Forall (fun c => isNameByte c = true) (bytes (ToLower (MapFrom sanitizeRune skip s))).
Proof.
  revert skip. induction s as [|c rest IH]; intros skip; [constructor |].
  cbn [MapFrom]. destruct skip as [|k]; [| apply IH].
  destruct (decodeRune c rest) as [r width]. cbn [ToLower bytes list_ascii_of_string].
  constructor; [apply sanitizeRune_name_byte | apply IH].
Qed.

Lemma name_byte_fixed (c : ascii) (rest : string) :
  isNameByte c = true ->
  decodeRune c rest = (code c, 1%nat) /\ lowerByte (sanitizeRune (code c)) = c.
Proof.
  destruct c as [[] [] [] [] [] [] [] []]; intros Hc; try discriminate Hc;
    split; reflexivity.
Qed.

Lemma sanitizeName_fixed (s : string) :
  Forall (fun c => isNameByte c = true) (bytes s) -> sanitizeName s = s.
Proof.
  rewrite sanitizeName_unfold. unfold Map.
  induction s as [|c rest IH]; intros Hs; [reflexivity |].
  cbn [bytes list_ascii_of_string] in Hs. apply Forall_cons in Hs as [Hc Hrest].
  destruct (name_byte_fixed c rest Hc) as [Hdecode Hfixed].
  cbn [MapFrom]. rewrite Hdecode. cbn [Nat.pred ToLower]. rewrite Hfixed.
  f_equal. apply IH. exact Hrest.
Qed.

(** X1. Every byte of a sanitized name is a lower-case letter, a digit or
    an underscore, whatever the bytes of the name; a name made of such bytes
    is left as it is; so sanitizing twice is sanitizing once. *)
Theorem sanitizeName_charset (name : string) :
  Forall (fun c => isNameByte c = true) (bytes (sanitizeName name))
  /\ (Forall (fun c => isNameByte c = true) (bytes name) -> sanitizeName name = name)
  /\ sanitizeName (sanitizeName name) = sanitizeName name.
Proof.
  assert (Hbytes : Forall (fun c => isNameByte c = true) (bytes (sanitizeName name))).
  { rewrite sanitizeName_unfold. apply MapFrom_name_bytes. }
  split; [exact Hbytes |]. split; [apply sanitizeName_fixed |].
  apply sanitizeName_fixed. exact Hbytes.
Qed.

Lemma sanitizeName_charset_witness :
  sanitizeName "kb_cluster_2" = "kb_cluster_2".
Proof.
  assert (Hbytes : Forall (fun c => isNameByte c = true) (bytes "kb_cluster_2"))
    by (repeat constructor).
  exact (proj1 (proj2 (sanitizeName_charset "kb_cluster_2")) Hbytes).
Defined.

(** ** Sorted label names and values *)

Lemma string_le_total : Total string_le.
Proof. intros a b. unfold string_le. apply String.leb_total. Qed.

Lemma getSortedKeys_elem (m : gmap string string) (k : string) :
  k ∈ getSortedKeys m <-> is_Some (m !! k).
Proof.
  unfold getSortedKeys, sort_Strings. rewrite merge_sort_Permutation.
  rewrite list_elem_of_fmap. split.
  - intros ([k' v] & -> & Hin). apply elem_of_map_to_list in Hin. eauto.
  - intros [v Hv]. exists (k, v). split; [reflexivity |].
    apply elem_of_map_to_list. exact Hv.
Qed.

(** X2. [getSortedKeys] returns every key of the map once, in ascending
    byte-wise order, and [getSortedValues] returns at each position the value
    that the map holds for the key at that position: names and values of
    labels line up. *)
Theorem sorted_keys_and_values (m : gmap string string) :
  Sorted string_le (getSortedKeys m)
  /\ NoDup (getSortedKeys m)
  /\ (forall k, k ∈ getSortedKeys m <-> is_Some (m !! k))
  /\ length (getSortedKeys m) = size m
  /\ length (getSortedValues m) = length (getSortedKeys m)
  /\ (forall (i : nat) k, getSortedKeys m !! i = Some k ->
        exists v, m !! k = Some v /\ getSortedValues m !! i = Some v).
Proof.
  split; [| split; [| split; [| split; [| split]]]].
  - apply (@Sorted_merge_sort _ string_le _ string_le_total).
  - unfold getSortedKeys, sort_Strings. rewrite merge_sort_Permutation.
    apply NoDup_fst_map_to_list.
  - apply getSortedKeys_elem.
  - unfold getSortedKeys, sort_Strings. rewrite merge_sort_Permutation.
    rewrite length_fmap. apply length_map_to_list.
  - unfold getSortedValues. apply length_map.
  - intros i k Hi.
    assert (Hk : is_Some (m !! k)).
    { apply getSortedKeys_elem. eapply list_elem_of_lookup_2. exact Hi. }
    destruct Hk as [v Hv]. exists v. split; [exact Hv |].
    unfold getSortedValues. change (map ?f ?l) with (f <$> l).
    rewrite list_lookup_fmap, Hi. cbn. rewrite Hv. reflexivity.
Qed.

Lemma sorted_keys_and_values_witness :
  getSortedKeys (CRDConfig.CommonLabels threeMetrics) !! 1%nat = Some "namespace"
  /\ getSortedValues (CRDConfig.CommonLabels threeMetrics) !! 1%nat
     = Some "metadata.namespace".
Proof.
  destruct (sorted_keys_and_values (CRDConfig.CommonLabels threeMetrics))
    as (_ & _ & _ & _ & _ & Hlined).
  assert (Hkey : getSortedKeys (CRDConfig.CommonLabels threeMetrics) !! 1%nat
                 = Some "namespace") by reflexivity.
  split; [exact Hkey |].
  destruct (Hlined 1%nat "namespace" Hkey) as (v & Hv & Hvalue).
  vm_compute in Hv. injection Hv as <-. exact Hvalue.
Defined.

(** ** Descriptors *)

Lemma initMetrics_unfold (crd : CRDConfig.t) (metricPrefix : string) :
  initMetrics crd metricPrefix
  = fold_left (initMetric (namePrefix crd metricPrefix) (getCommonLabelNames crd))
      (CRDConfig.Metrics crd) (∅, []).
Proof. reflexivity. Qed.

Lemma initMetric_lookup (prefix : string) (commonLabelNames : list string)
  (st : gmap string prometheus.Desc * list log.Entry) (m : MetricConfig.t) (name : string) :
  (initMetric prefix commonLabelNames st m).1 !! name
  = match labelNamesFor commonLabelNames m with
    | Some names =>
        if decide (MetricConfig.Name m = name)
        then Some (prometheus.NewDesc (prometheus.BuildFQName prefix "" name)
                     (MetricConfig.Help m) names)
        else st.1 !! name
    | None => st.1 !! name
    end.
Proof.
  destruct st as [descs logged]. unfold initMetric.
  destruct (labelNamesFor commonLabelNames m) as [names|]; [| reflexivity].
  cbn [fst]. destruct (decide (MetricConfig.Name m = name)) as [<-|Hne].
  - apply lookup_insert_eq.
  - apply lookup_insert_ne. exact Hne.
Qed.

(** A descriptor found after the loop was there before it or was built for
    one of the metrics. *)
Lemma initMetrics_loop_lookup (prefix : string) (commonLabelNames : list string)
  (metrics : list MetricConfig.t) (st : gmap string prometheus.Desc * list log.Entry)
  (name : string) (d : prometheus.Desc) :
  (fold_left (initMetric prefix commonLabelNames) metrics st).1 !! name = Some d ->
  st.1 !! name = Some d
  \/ exists m names,
      m ∈ metrics /\ MetricConfig.Name m = name
      /\ labelNamesFor commonLabelNames m = Some names
      /\ d = prometheus.NewDesc (prometheus.BuildFQName prefix "" name)
               (MetricConfig.Help m) names.
Proof.
  revert st. induction metrics as [|m metrics IH]; intros st Hd; [left; exact Hd |].
  cbn [fold_left] in Hd. destruct (IH _ Hd) as [Hst | (m' & names & Hin & Hrest)].
  - rewrite initMetric_lookup in Hst.
    destruct (labelNamesFor commonLabelNames m) as [names|] eqn:Hnames; [| left; exact Hst].
    destruct (decide (MetricConfig.Name m = name)) as [Hname|_]; [| left; exact Hst].
    right. exists m, names. injection Hst as <-.
    split; [apply list_elem_of_here |]. repeat split; assumption.
  - right. exists m', names. split; [apply list_elem_of_further; exact Hin | exact Hrest].
Qed.

Lemma initMetrics_loop_other (prefix : string) (commonLabelNames : list string)
  (metrics : list MetricConfig.t) (st : gmap string prometheus.Desc * list log.Entry)
  (name : string) :
  (forall m, m ∈ metrics -> MetricConfig.Name m <> name) ->
  (fold_left (initMetric prefix commonLabelNames) metrics st).1 !! name = st.1 !! name.
Proof.
  revert st. induction metrics as [|m metrics IH]; intros st Hother; [reflexivity |].
  cbn [fold_left]. rewrite IH.
  - rewrite initMetric_lookup.
    destruct (labelNamesFor commonLabelNames m); [| reflexivity].
    rewrite decide_False; [reflexivity |]. apply Hother. apply list_elem_of_here.
  - intros m' Hin. apply Hother. apply list_elem_of_further. exact Hin.
Qed.

Lemma initMetrics_loop_built (prefix : string) (commonLabelNames : list string)
  (metrics : list MetricConfig.t) (st : gmap string prometheus.Desc * list log.Entry)
  (m : MetricConfig.t) (names : list string) :
  NoDup (map MetricConfig.Name metrics) ->
  m ∈ metrics -> labelNamesFor commonLabelNames m = Some names ->
  (fold_left (initMetric prefix commonLabelNames) metrics st).1 !! MetricConfig.Name m
  = Some (prometheus.NewDesc (prometheus.BuildFQName prefix "" (MetricConfig.Name m))
            (MetricConfig.Help m) names).
Proof.
  revert st. induction metrics as [|m0 metrics IH]; intros st Hnodup Hin Hnames.
  - apply elem_of_nil in Hin. contradiction.
  - cbn [map] in Hnodup. apply NoDup_cons in Hnodup as [Hfresh Hnodup].
    cbn [fold_left]. apply elem_of_cons in Hin as [->|Hin].
    + rewrite initMetrics_loop_other.
      * rewrite initMetric_lookup, Hnames. rewrite decide_True by reflexivity. reflexivity.
      * intros m' Hin' Heq. apply Hfresh. rewrite <- Heq.
        change (map MetricConfig.Name metrics) with (MetricConfig.Name <$> metrics).
        apply list_elem_of_fmap_2. exact Hin'.
    + apply IH; assumption.
Qed.

Lemma initMetrics_loop_some (prefix : string) (commonLabelNames : list string)
  (metrics : list MetricConfig.t) (st : gmap string prometheus.Desc * list log.Entry)
  (name : string) :
  (exists m, m ∈ metrics /\ knownType m = true /\ MetricConfig.Name m = name)
  \/ is_Some (st.1 !! name) ->
  is_Some ((fold_left (initMetric prefix commonLabelNames) metrics st).1 !! name).
Proof.
  revert st. induction metrics as [|m1 metrics IH]; intros st Hcase.
  - destruct Hcase as [(m & Hin & _) | Hst]; [| exact Hst].
    apply elem_of_nil in Hin. contradiction.
  - cbn [fold_left]. apply IH.
    destruct Hcase as [(m & Hin & Hknown & Hname) | Hst].
    + apply elem_of_cons in Hin as [->|Hin]; [| left; eauto].
      right. rewrite initMetric_lookup.
      destruct (labelNamesFor_known commonLabelNames m1 Hknown) as [ns ->].
      rewrite decide_True by exact Hname. eauto.
    + right. rewrite initMetric_lookup.
      destruct (labelNamesFor commonLabelNames m1); [| exact Hst].
      destruct (decide (MetricConfig.Name m1 = name)); eauto.
Qed.

(** X3. A name has a descriptor after construction exactly when some metric
    of known type bears it; when the metric names are distinct, the
    descriptor of each metric of known type carries the prefixed metric name,
    the help text and the label names computed for that metric; and the
    event handlers leave the descriptors as they are, so they do not depend
    on what is cached. *)
Theorem descriptors_built (crd : CRDConfig.t) (metricPrefix : string) :
  let c := (NewConfigurableCollector crd metricPrefix).1 in
  (forall name,
      is_Some (descriptors c !! name) <->
      exists m, m ∈ CRDConfig.Metrics crd /\ knownType m = true
                /\ MetricConfig.Name m = name)
  /\ (distinctNames crd ->
      forall m names,
        m ∈ CRDConfig.Metrics crd ->
        labelNamesFor (getCommonLabelNames crd) m = Some names ->
        descriptors c !! MetricConfig.Name m
        = Some (prometheus.NewDesc
                  (prometheus.BuildFQName (namePrefix crd metricPrefix) ""
                     (MetricConfig.Name m))
                  (MetricConfig.Help m) names))
  /\ (forall e, descriptors (dispatch e c) = descriptors c).
Proof.
  intros c.
  assert (Hc : descriptors c = (initMetrics crd metricPrefix).1).
  { unfold c, NewConfigurableCollector. destruct (initMetrics crd metricPrefix). reflexivity. }
  split; [| split].
  - intros name. rewrite Hc, initMetrics_unfold. split.
    + intros [d Hd]. apply initMetrics_loop_lookup in Hd as [Hd | (m & names & Hin & Hname & Hnames & _)].
      * cbn in Hd. rewrite lookup_empty in Hd. discriminate.
      * exists m. split; [exact Hin |]. split; [| exact Hname].
        destruct (knownType m) eqn:Hknown; [reflexivity |].
        rewrite (labelNamesFor_unknown _ _ Hknown) in Hnames. discriminate.
    + intros (m & Hin & Hknown & Hname).
      apply initMetrics_loop_some. left. eauto.
  - intros Hdistinct m names Hin Hnames. rewrite Hc, initMetrics_unfold.
    apply initMetrics_loop_built; assumption.
  - intros [obj | oldObj newObj | obj]; reflexivity.
Qed.

Lemma threeMetrics_distinct : distinctNames threeMetrics.
Proof.
  unfold distinctNames. cbn.
  repeat (apply NoDup_cons; split;
          [intros Hin; repeat (apply elem_of_cons in Hin as [Hin|Hin]; [discriminate |]);
           apply elem_of_nil in Hin; exact Hin |]).
  apply NoDup_nil. exact I.
Qed.

Lemma descriptors_built_witness :
  descriptors (NewConfigurableCollector threeMetrics "sealos").1 !! "info"
  = Some (prometheus.NewDesc "sealos_test_crd_info" "Resource info"
            ["name"; "namespace"; "phase"]).
Proof.
  pose proof (descriptors_built threeMetrics "sealos") as Hbuilt. cbv zeta in Hbuilt.
  destruct Hbuilt as (_ & Hdesc & _).
  refine (Hdesc threeMetrics_distinct infoMetric ["name"; "namespace"; "phase"] _ _).
  - apply list_elem_of_here.
  - vm_compute. reflexivity.
Defined.

(** ** Label names and label values *)

Lemma forM_elem {A B : Type} (f : A -> outcome (list B)) (l : list A) (out : list B) (x : B) :
  forM f l = Ret out -> x ∈ out ->
  exists a ys, a ∈ l /\ f a = Ret ys /\ x ∈ ys.
Proof.
  revert out. induction l as [|a l IH]; intros out Hout Hx.
  - injection Hout as <-. apply elem_of_nil in Hx. contradiction.
  - cbn [forM] in Hout. destruct (f a) as [ys|] eqn:Hfa; [| discriminate].
    destruct (forM f l) as [zs|] eqn:Hrest; [| discriminate].
    injection Hout as <-. apply elem_of_app in Hx as [Hx|Hx].
    + exists a, ys. split; [apply list_elem_of_here | split; assumption].
    + destruct (IH zs eq_refl Hx) as (a' & ys' & Hin & Hfa' & Hx').
      exists a', ys'. split; [apply list_elem_of_further; exact Hin | split; assumption].
Qed.

Lemma extractCommonLabels_length (c : ConfigurableCollector) (obj : Unstructured) :
  length (extractCommonLabels c obj) = length (getCommonLabelNames (crdConfig c)).
Proof.
  unfold extractCommonLabels, getCommonLabelNames, getSortedValues.
  rewrite !length_map. reflexivity.
Qed.

(** Each strategy of the first pass produces as many label values as
    [initMetrics] computed label names for the type of the metric. *)
Lemma collectResourceMetric_labelled {strconv : Strconv} (c : ConfigurableCollector)
  (obj : Unstructured) (commonLabels commonLabelNames : list string)
  (metricCfg : MetricConfig.t) (d : prometheus.Desc) (out : list prometheus.Metric) :
  descriptors c !! MetricConfig.Name metricCfg = Some d ->
  labelNamesFor commonLabelNames metricCfg = Some (prometheus.variableLabels d) ->
  length commonLabels = length commonLabelNames ->
  collectResourceMetric c obj commonLabels metricCfg = Ret out ->
  forall metric, metric ∈ out -> labelled d metric.
Proof.
  intros Hd Hnames Hlen Hout metric Hin.
  unfold collectResourceMetric in Hout. rewrite Hd in Hout.
  unfold labelNamesFor in Hnames. unfold labelled.
  destruct metricCfg as [ty name help path valuePath keyLabel valueLabel labels cond].
  cbn [MetricConfig.Type_ MetricConfig.Labels MetricConfig.KeyLabel
         MetricConfig.ValueLabel] in *.
  destruct (String.eqb_spec ty "info") as [->|_].
  { injection Hout as <-. injection Hnames as <-.
    apply list_elem_of_singleton in Hin. subst metric. split; [reflexivity |].
    cbn. unfold getSortedValues. rewrite !length_app, !length_map, Hlen. reflexivity. }
  destruct (String.eqb_spec ty "count") as [->|_].
  { injection Hout as <-. apply elem_of_nil in Hin. contradiction. }
  destruct (String.eqb_spec ty "gauge") as [->|_].
  { injection Hout as <-. injection Hnames as <-.
    apply list_elem_of_singleton in Hin. subst metric. split; [reflexivity | exact Hlen]. }
  destruct (String.eqb_spec ty "map_state") as [->|_].
  { injection Hnames as <-. unfold collectMapStateMetric in Hout.
    destruct (extractFieldMap obj _) as [mapData|]; [| discriminate].
    injection Hout as <-. apply list_elem_of_In, in_flat_map in Hin as ([k e] & _ & Hin).
    rewrite mapStateEntry_fieldString in Hin.
    destruct (decide _); [destruct Hin |]. destruct Hin as [<-|[]].
    split; [reflexivity |]. cbn. rewrite !length_app, Hlen. reflexivity. }
  destruct (String.eqb_spec ty "map_gauge") as [->|_].
  { injection Hnames as <-. unfold collectMapGaugeMetric in Hout.
    destruct (extractFieldMap obj _) as [mapData|]; [| discriminate].
    injection Hout as <-. apply list_elem_of_In, in_flat_map in Hin as ([k e] & _ & Hin).
    destruct e; cbn in Hin; try contradiction. destruct Hin as [<-|[]].
    split; [reflexivity |]. cbn. rewrite !length_app, Hlen. reflexivity. }
  destruct (String.eqb_spec ty "conditions") as [->|_]; [| discriminate].
  injection Hnames as <-. unfold collectConditionsMetric in Hout.
  destruct (conditionFields _) as [[tf sf] rf].
  destruct (extractFieldSlice obj _) as [conditions|]; [| discriminate].
  injection Hout as <-. apply list_elem_of_In, in_flat_map in Hin as (e & _ & Hin).
  rewrite conditionEntry_fieldString in Hin.
  destruct (decide _); [destruct Hin |]. destruct Hin as [<-|[]].
  split; [reflexivity |]. cbn. rewrite !length_app, Hlen. reflexivity.
Qed.

Lemma collectAggregateMetric_labelled (c : ConfigurableCollector)
  (commonLabelNames : list string) (metricCfg : MetricConfig.t) (d : prometheus.Desc) :
  descriptors c !! MetricConfig.Name metricCfg = Some d ->
  labelNamesFor commonLabelNames metricCfg = Some (prometheus.variableLabels d) ->
  forall metric, metric ∈ collectAggregateMetric c metricCfg -> labelled d metric.
Proof.
  intros Hd Hnames metric Hin. unfold collectAggregateMetric in Hin.
  rewrite Hd in Hin. unfold labelNamesFor in Hnames. unfold labelled.
  destruct metricCfg as [ty name help path valuePath keyLabel valueLabel labels cond].
  cbn [MetricConfig.Type_ MetricConfig.ValueLabel] in *.
  destruct (String.eqb_spec ty "count") as [->|Hne].
  - cbn in Hnames. injection Hnames as <-. cbn [negb] in Hin.
    unfold collectCountMetric in Hin.
    apply list_elem_of_In, in_map_iff in Hin as ([v n] & <- & _).
    split; reflexivity.
  - cbn [negb] in Hin. apply elem_of_nil in Hin. contradiction.
Qed.

(** X4. For a collector whose descriptors were built from its configuration
    and whose metric names are distinct, every metric that a scrape sends
    carries the descriptor built for its definition and as many label values
    as that descriptor has label names. *)
Theorem collect_label_cardinality {strconv : Strconv} (c : ConfigurableCollector)
  (out : list prometheus.Metric) :
  built c -> distinctNames (crdConfig c) ->
  collect c = Ret out ->
  forall metric, metric ∈ out ->
    length (prometheus.labelValues metric)
    = length (prometheus.variableLabels (prometheus.desc metric))
    /\ exists metricCfg,
        metricCfg ∈ CRDConfig.Metrics (crdConfig c)
        /\ descriptors c !! MetricConfig.Name metricCfg = Some (prometheus.desc metric).
Proof.
  intros Hbuilt Hdistinct Hout metric Hin.
  assert (Hdesc : forall metricCfg d,
             metricCfg ∈ CRDConfig.Metrics (crdConfig c) ->
             descriptors c !! MetricConfig.Name metricCfg = Some d ->
             labelNamesFor (getCommonLabelNames (crdConfig c)) metricCfg
             = Some (prometheus.variableLabels d)).
  { intros metricCfg d Hcfg Hd.
    destruct (knownType metricCfg) eqn:Hknown.
    - destruct (labelNamesFor_known (getCommonLabelNames (crdConfig c)) _ Hknown)
        as [names Hnames].
      rewrite Hbuilt, initMetrics_unfold in Hd.
      rewrite (initMetrics_loop_built _ _ _ _ _ names Hdistinct Hcfg Hnames) in Hd.
      injection Hd as <-. exact Hnames.
    - rewrite Hbuilt, initMetrics_unfold in Hd.
      apply initMetrics_loop_lookup in Hd as [Hd | (m & names & Hm & Hname & Hnames & ->)].
      + cbn in Hd. rewrite lookup_empty in Hd. discriminate.
      + assert (m = metricCfg) as ->.
        { clear - Hdistinct Hm Hcfg Hname. unfold distinctNames in Hdistinct.
          induction (CRDConfig.Metrics (crdConfig c)) as [|m0 l IH].
          - apply elem_of_nil in Hm. contradiction.
          - cbn [map] in Hdistinct. apply NoDup_cons in Hdistinct as [Hfresh Hnodup].
            change (map MetricConfig.Name l) with (MetricConfig.Name <$> l) in Hfresh.
            apply elem_of_cons in Hm as [->|Hm]; apply elem_of_cons in Hcfg as [->|Hcfg].
            + reflexivity.
            + exfalso. apply Hfresh. rewrite Hname. apply list_elem_of_fmap_2. exact Hcfg.
            + exfalso. apply Hfresh. rewrite <- Hname. apply list_elem_of_fmap_2. exact Hm.
            + apply IH; assumption. }
        exact Hnames. }
  unfold collect in Hout.
  destruct (forM (fun entry => collectResource c entry.2) (map_to_list (resources c)))
    as [first|] eqn:Hfirst; [| discriminate].
  cbn in Hout. injection Hout as <-.
  apply elem_of_app in Hin as [Hin|Hin].
  - destruct (forM_elem _ _ _ _ Hfirst Hin) as ([k obj] & ys & _ & Hys & Hmetric).
    unfold collectResource in Hys. cbn [snd] in Hys.
    destruct (forM_elem _ _ _ _ Hys Hmetric) as (metricCfg & zs & Hcfg & Hzs & Hmetric').
    destruct (descriptors c !! MetricConfig.Name metricCfg) as [d|] eqn:Hd.
    + destruct (collectResourceMetric_labelled c obj _ _ metricCfg d zs Hd
                  (Hdesc _ _ Hcfg Hd) (extractCommonLabels_length c obj) Hzs metric Hmetric')
        as [Heq Hlen].
      rewrite Heq. split; [exact Hlen | eauto].
    + unfold collectResourceMetric in Hzs. rewrite Hd in Hzs. injection Hzs as <-.
      apply elem_of_nil in Hmetric'. contradiction.
  - apply list_elem_of_In, in_flat_map in Hin as (metricCfg & Hcfg & Hmetric).
    apply list_elem_of_In in Hcfg, Hmetric.
    destruct (descriptors c !! MetricConfig.Name metricCfg) as [d|] eqn:Hd.
    + destruct (collectAggregateMetric_labelled c _ metricCfg d Hd (Hdesc _ _ Hcfg Hd)
                  metric Hmetric) as [Heq Hlen].
      rewrite Heq. split; [exact Hlen | eauto].
    + unfold collectAggregateMetric in Hmetric. rewrite Hd in Hmetric.
      destruct (negb _) in Hmetric; apply elem_of_nil in Hmetric; contradiction.
Qed.

Lemma handlers_built (c : ConfigurableCollector) (e : Event) : built c -> built (dispatch e c).
Proof. intros Hc. destruct e; exact Hc. Qed.

Lemma NewConfigurableCollector_built (crd : CRDConfig.t) (metricPrefix : string) :
  built (NewConfigurableCollector crd metricPrefix).1.
Proof.
  unfold built, NewConfigurableCollector.
  destruct (initMetrics crd metricPrefix) as [descs logged] eqn:Hinit. cbn.
  rewrite Hinit. reflexivity.
Qed.

Lemma collect_label_cardinality_witness :
  exists out,
    collect (strconv := exampleParseFloat) threeMetricsCollector = Ret out
    /\ length out = 3%nat
    /\ Forall (fun metric =>
                 length (prometheus.labelValues metric)
                 = length (prometheus.variableLabels (prometheus.desc metric))) out.
Proof.
  destruct (collect (strconv := exampleParseFloat) threeMetricsCollector) as [out|msg] eqn:Hout;
    [| vm_compute in Hout; discriminate].
  exists out. split; [reflexivity |]. split.
  - assert (Hlen : (fun o => match o with Ret l => length l | Panic _ => 0%nat end)
                     (collect (strconv := exampleParseFloat) threeMetricsCollector) = 3%nat)
      by (vm_compute; reflexivity).
    rewrite Hout in Hlen. exact Hlen.
  - apply Forall_forall. intros metric Hin.
    assert (Hbuilt : built threeMetricsCollector).
    { apply (handlers_built _ (OnAdd (resourceWithPhase "Running"))).
      apply NewConfigurableCollector_built. }
    exact (proj1 (collect_label_cardinality (strconv := exampleParseFloat)
                    threeMetricsCollector out Hbuilt threeMetrics_distinct Hout metric Hin)).
Defined.

(** ** Scrapes that return *)





(** A Go [int] deep inside a cached object makes the scrape panic as soon as
    a map strategy reaches it. *)
Example collect_panics_outside_json :
  collect (strconv := exampleParseFloat)
    (handleAdd (NewConfigurableCollector
                  {| CRDConfig.Name := "test-crd"; CRDConfig.CommonLabels := ∅;
                     CRDConfig.Metrics := [componentsConfig "map_state" "phase"] |} "").1
       {| Object := {["status" := AMap {["components" :=
                        AMap {["web" := AMap {["replicas" := AInt 3]}]}]}]} |})
  = Panic "cannot deep copy".
Proof. vm_compute. reflexivity. Qed.

(** X6. With nothing cached a scrape sends nothing, count metrics
    included: no zero-valued tuple stands for an absent value. *)
Theorem collect_empty_cache {strconv : Strconv} (c : ConfigurableCollector) :
  resources c = ∅ -> collect c = Ret [].
Proof.
  intros Hempty. unfold collect. rewrite Hempty, map_to_list_empty. cbn.
  f_equal. induction (CRDConfig.Metrics (crdConfig c)) as [|m l IH]; [reflexivity |].
  cbn [flat_map]. rewrite IH, app_nil_r. unfold collectAggregateMetric.
  destruct (negb _); [reflexivity |].
  destruct (descriptors c !! MetricConfig.Name m); [| reflexivity].
  unfold collectCountMetric, countValues. rewrite Hempty, map_fold_empty, map_to_list_empty.
  reflexivity.
Qed.

Lemma collect_empty_cache_witness :
  collect (strconv := exampleParseFloat) (NewConfigurableCollector threeMetrics "sealos").1
  = Ret [].
Proof.
  apply (collect_empty_cache (strconv := exampleParseFloat)). reflexivity.
Defined.

(** ** The cache as a per-key state machine *)

Lemma dispatch_lookup (e : Event) (c : ConfigurableCollector) (k : string) :
  resources (dispatch e c) !! k
  = match effectOn k e with
    | Some r => r
    | None => resources c !! k
    end.
Proof.
  destruct e as [obj | oldObj obj | obj]; cbn [effectOn];
    destruct (decide (resourceKey obj = k)) as [<-|Hne]; cbn.
  - apply lookup_insert_eq.
  - apply lookup_insert_ne. exact Hne.
  - apply lookup_insert_eq.
  - apply lookup_insert_ne. exact Hne.
  - apply lookup_delete_eq.
  - apply lookup_delete_ne. exact Hne.
Qed.

Lemma replay_untouched (events : list Event) (c : ConfigurableCollector) (k : string) :
  (forall e, e ∈ events -> effectOn k e = None) ->
  resources (replay events c) !! k = resources c !! k.
Proof.
  revert c. induction events as [|e events IH]; intros c Hnone; [reflexivity |].
  unfold replay. cbn [fold_left]. fold (replay events (dispatch e c)).
  rewrite IH.
  - rewrite dispatch_lookup, (Hnone e (list_elem_of_here _ _)). reflexivity.
  - intros e' Hin. apply Hnone. apply list_elem_of_further. exact Hin.
Qed.

(** X7. The cache holds for each key what the last event on that key left:
    after any sequence of events, the entry of a key is the object of the
    last add or update of that key, or is absent if the last event on the
    key was a delete, whatever came before it and whatever happened to other
    keys; a key that no event touched keeps its entry. An update counts for
    the key of its new object alone. *)
Theorem cache_last_event_wins (before after : list Event) (e : Event)
  (c : ConfigurableCollector) (k : string) (r : option Unstructured) :
  effectOn k e = Some r ->
  (forall e', e' ∈ after -> effectOn k e' = None) ->
  resources (replay (before ++ e :: after) c) !! k = r.
Proof.
  intros He Hafter. unfold replay. rewrite fold_left_app. cbn [fold_left].
  fold (replay before c). fold (replay after (dispatch e (replay before c))).
  rewrite (replay_untouched _ _ _ Hafter), dispatch_lookup, He. reflexivity.
Qed.

Lemma cache_last_event_wins_witness :
  resources
    (replay [OnAdd (resourceWithPhase "Pending");
             OnUpdate (resourceWithPhase "Pending") (resourceWithPhase "Running");
             OnAdd (namedResource "r1" "A")] emptyCollector)
  !! "default/db-1" = Some (resourceWithPhase "Running").
Proof.
  apply (cache_last_event_wins [OnAdd (resourceWithPhase "Pending")]
           [OnAdd (namedResource "r1" "A")]
           (OnUpdate (resourceWithPhase "Pending") (resourceWithPhase "Running"))
           emptyCollector "default/db-1" (Some (resourceWithPhase "Running"))).
  - reflexivity.
  - intros e' Hin. apply list_elem_of_singleton in Hin. subst e'. reflexivity.
Defined.

(** An update that changes the key leaves the old object cached. *)
Example OnUpdate_new_key_keeps_old :
  let c := dispatch (OnUpdate (namedResource "r1" "A") (namedResource "r2" "A"))
             (dispatch (OnAdd (namedResource "r1" "A")) emptyCollector) in
  resources c !! "/r1" = Some (namedResource "r1" "A")
  /\ resources c !! "/r2" = Some (namedResource "r2" "A").
Proof. vm_compute. split; reflexivity. Qed.

(** ** The pod aggregator *)

(** X8. [GetAbnormalDuration] is 0 for a pod that is not tracked; once an
    abnormal pod that was not tracked is added at [t0], it is [now - t0] at
    every later [now]; and after [RemovePod] of the pod it is 0 again,
    whether or not the pod was tracked or bucketed. *)
Theorem abnormal_duration (a : pod.PodAggregator) (p : corev1.Pod.t) (t0 now : Z) :
  let ns := corev1.Pod.Namespace p in
  let name := corev1.Pod.Name p in
  (pod.abnormalPods a !! abnormalKey p = None -> pod.GetAbnormalDuration a now ns name = 0)
  /\ (pod.isPodAbnormal p = true -> pod.abnormalPods a !! abnormalKey p = None ->
      pod.GetAbnormalDuration (pod.AddPod a t0 (Some p)) now ns name = now - t0)
  /\ (pod.isPodAbnormal p = false -> pod.abnormalPods a !! abnormalKey p = None ->
      pod.GetAbnormalDuration (pod.AddPod a t0 (Some p)) now ns name = 0)
  /\ pod.GetAbnormalDuration (pod.RemovePod a (Some p)) now ns name = 0.
Proof.
  intros ns name. subst ns name.
  unfold pod.GetAbnormalDuration, pod.AddPod, pod.RemovePod, abnormalKey.
  cbn [pod.abnormalPods].
  split; [| split; [| split]].
  - intros ->. reflexivity.
  - intros -> ->. rewrite lookup_insert_eq. reflexivity.
  - intros -> ->. reflexivity.
  - rewrite lookup_delete_eq. reflexivity.
Qed.

Lemma abnormal_duration_witness :
  pod.GetAbnormalDuration (pod.AddPod (pod.NewPodAggregator (5 * time.Minute)) 100 (Some failedPod))
    160 "default" "web-0" = 60.
Proof.
  pose proof (abnormal_duration (pod.NewPodAggregator (5 * time.Minute)) failedPod 100 160)
    as Hduration.
  cbv zeta in Hduration. destruct Hduration as (_ & Htracked & _).
  apply Htracked; reflexivity.
Defined.

(** X9. The first-seen time of a tracked pod is never overwritten: it
    survives every [AddPod], also one of the same pod at a later time and
    also one that finds the pod healthy again, every cleanup, and every
    [RemovePod] of another pod. Only [RemovePod] of that pod ends the
    tracking. *)
Theorem abnormal_tracking_persists (a : pod.PodAggregator) (k : string) (t0 : Z) :
  pod.abnormalPods a !! k = Some t0 ->
  (forall now q, pod.abnormalPods (pod.AddPod a now q) !! k = Some t0)
  /\ (forall now, pod.abnormalPods (pod.cleanup a now) !! k = Some t0)
  /\ (forall q, abnormalKey q <> k ->
        pod.abnormalPods (pod.RemovePod a (Some q)) !! k = Some t0)
  /\ pod.abnormalPods (pod.RemovePod a None) !! k = Some t0.
Proof.
  intros Hk. split; [| split; [| split]].
  - intros now [q|]; [| exact Hk]. unfold pod.AddPod. cbn [pod.abnormalPods].
    change (String.append (corev1.Pod.Namespace q)
              (String.append "/" (corev1.Pod.Name q))) with (abnormalKey q).
    destruct (pod.isPodAbnormal q); [| exact Hk].
    destruct (pod.abnormalPods a !! abnormalKey q) eqn:Hq; [exact Hk |].
    rewrite lookup_insert_ne; [exact Hk |]. intros <-. congruence.
  - intros now. exact Hk.
  - intros q Hne. unfold pod.RemovePod. cbn [pod.abnormalPods].
    change (String.append (corev1.Pod.Namespace q)
              (String.append "/" (corev1.Pod.Name q))) with (abnormalKey q).
    rewrite lookup_delete_ne by exact Hne. exact Hk.
  - exact Hk.
Qed.

Lemma abnormal_tracking_persists_witness :
  let a := pod.AddPod (pod.NewPodAggregator (5 * time.Minute)) 100 (Some pendingPod) in
  pod.GetAbnormalDuration (pod.AddPod a 200 (Some runningPod)) 260 "default" "web-0" = 160.
Proof.
  intros a.
  assert (Hk : pod.abnormalPods a !! "default/web-0" = Some 100) by reflexivity.
  destruct (abnormal_tracking_persists a "default/web-0" 100 Hk) as (Hadd & _).
  unfold pod.GetAbnormalDuration.
  change (String.append "default" (String.append "/" "web-0")) with "default/web-0".
  rewrite (Hadd 200 (Some runningPod)). reflexivity.
Defined.

Lemma pod_keys_step (a a' : pod.PodAggregator) :
  pod.step a a' -> pod_keys_ok a -> pod_keys_ok a'.
Proof.
  intros Hstep Hok k b. destruct Hstep as [now [p|] | [p|] | now]; try apply Hok.
  - unfold pod.AddPod. cbn [pod.aggregated].
    destruct (pod.aggregated a !! pod.podAggregationKey p) as [agg|] eqn:Hagg;
      (destruct (decide (pod.podAggregationKey p = k)) as [<-|Hne];
       [rewrite lookup_insert_eq; intros [= <-]; cbn
       | rewrite lookup_insert_ne by exact Hne; apply Hok]).
    + exact (Hok _ _ Hagg).
    + reflexivity.
  - unfold pod.RemovePod. cbn [pod.aggregated].
    destruct (pod.aggregated a !! pod.podAggregationKey p) as [agg|] eqn:Hagg; [| apply Hok].
    destruct (_ =? 0).
    + intros Hk. apply lookup_delete_Some in Hk as [_ Hk]. exact (Hok _ _ Hk).
    + destruct (decide (pod.podAggregationKey p = k)) as [<-|Hne].
      * rewrite lookup_insert_eq. intros [= <-]. cbn. exact (Hok _ _ Hagg).
      * rewrite lookup_insert_ne by exact Hne. apply Hok.
  - unfold pod.cleanup. cbn [pod.aggregated]. intros Hk.
    apply map_lookup_filter_Some in Hk as [Hk _]. exact (Hok _ _ Hk).
Qed.

(** X10. After any sequence of [AddPod], [RemovePod] and cleanup calls on a
    new aggregator, every bucket is filed under the key made of its own
    namespace and phase, has at least one member, and has a [Count] that is
    the number of its members or one more. *)
Theorem pod_buckets_invariant (T : Z) (a : pod.PodAggregator) :
  rtc pod.step (pod.NewPodAggregator T) a ->
  pod.windowSize a = T /\ pod_keys_ok a /\ buckets_ok a.
Proof.
  intros Hreach. split; [| split].
  - apply rtc_nsteps in Hreach as [n Hn]. revert a Hn.
    induction n as [|n IH]; intros a Hn; [inversion Hn; reflexivity |].
    apply nsteps_inv_r in Hn as (mid & Hmid & Hstep). rewrite <- (IH _ Hmid).
    destruct Hstep as [now [p|] | [p|] | now]; reflexivity.
  - apply rtc_nsteps in Hreach as [n Hn]. revert a Hn.
    induction n as [|n IH]; intros a Hn.
    + inversion Hn; subst. intros k b Hk. cbn in Hk. rewrite lookup_empty in Hk. discriminate.
    + apply nsteps_inv_r in Hn as (mid & Hmid & Hstep).
      exact (pod_keys_step _ _ Hstep (IH _ Hmid)).
  - exact (pod_reachable_buckets_ok T a Hreach).
Qed.

Lemma pod_buckets_invariant_witness :
  let a := pod.RemovePod
             (pod.AddPod (pod.AddPod (pod.NewPodAggregator (5 * time.Minute)) 10
                            (Some runningPod)) 20 (Some failedPod))
             (Some runningPod) in
  pod_keys_ok a /\ buckets_ok a.
Proof.
  intros a.
  assert (Hreach : rtc pod.step (pod.NewPodAggregator (5 * time.Minute)) a).
  { eapply rtc_l; [apply (pod.step_AddPod _ 10 (Some runningPod)) |].
    eapply rtc_l; [apply (pod.step_AddPod _ 20 (Some failedPod)) |].
    eapply rtc_l; [apply (pod.step_RemovePod _ (Some runningPod)) |].
    apply rtc_refl. }
  exact (proj2 (pod_buckets_invariant _ a Hreach)).
Defined.

(** X11. [AddPod] never takes a member out of a bucket and touches no
    bucket but the one of the pod's present namespace and phase: a pod that
    was added in one phase and is added again in another stays a member of
    the first bucket. *)
Theorem AddPod_only_grows (a : pod.PodAggregator) (now : Z) (p : corev1.Pod.t)
  (k : string) (b : pod.AggregatedPod) :
  pod.aggregated a !! k = Some b ->
  exists b',
    pod.aggregated (pod.AddPod a now (Some p)) !! k = Some b'
    /\ (forall name, is_Some (pod.Pods b !! name) -> is_Some (pod.Pods b' !! name))
    /\ is_Some (pod.aggregated (pod.AddPod a now (Some p)) !! pod.podAggregationKey p)
    /\ (k <> pod.podAggregationKey p -> b' = b).
Proof.
  intros Hk. unfold pod.AddPod. cbn [pod.aggregated].
  destruct (pod.aggregated a !! pod.podAggregationKey p) as [agg|] eqn:Hagg.
  - destruct (decide (pod.podAggregationKey p = k)) as [<-|Hne].
    + rewrite Hagg in Hk. injection Hk as ->.
      eexists. rewrite lookup_insert_eq. split; [reflexivity |]. cbn.
      split; [| split; [eauto | congruence]].
      intros name Hname. destruct (decide (corev1.Pod.Name p = name)) as [<-|Hother].
      * rewrite lookup_insert_eq. eauto.
      * rewrite lookup_insert_ne by exact Hother. exact Hname.
    + exists b. rewrite lookup_insert_ne by exact Hne. rewrite lookup_insert_eq.
      split; [exact Hk |]. split; [tauto |]. split; [eauto | reflexivity].
  - assert (Hne : pod.podAggregationKey p <> k) by congruence.
    exists b. rewrite lookup_insert_ne by exact Hne. rewrite lookup_insert_eq.
    split; [exact Hk |]. split; [tauto |]. split; [eauto | reflexivity].
Qed.

Lemma AddPod_only_grows_witness :
  let a := pod.AddPod (pod.NewPodAggregator (5 * time.Minute)) 10 (Some pendingPod) in
  exists b', pod.aggregated (pod.AddPod a 20 (Some runningPod)) !! "default/Pending" = Some b'
             /\ is_Some (pod.Pods b' !! "web-0").
Proof.
  intros a.
  assert (Hk : exists b, pod.aggregated a !! "default/Pending" = Some b
                         /\ is_Some (pod.Pods b !! "web-0")).
  { eexists. split; [reflexivity |]. eexists. reflexivity. }
  destruct Hk as (b & Hk & Hmember).
  destruct (AddPod_only_grows a 20 runningPod "default/Pending" b Hk)
    as (b' & Hk' & Hgrow & _).
  exists b'. split; [exact Hk' | exact (Hgrow _ Hmember)].
Defined.

(** X12. [RemovePod] undoes [AddPod] when the pod opened its bucket: the
    buckets are as they were before the pod was added, and the pod is not
    tracked as abnormal. *)
Theorem AddPod_RemovePod (a : pod.PodAggregator) (now : Z) (p : corev1.Pod.t) :
  pod.aggregated a !! pod.podAggregationKey p = None ->
  pod.aggregated (pod.RemovePod (pod.AddPod a now (Some p)) (Some p)) = pod.aggregated a
  /\ pod.abnormalPods (pod.RemovePod (pod.AddPod a now (Some p)) (Some p)) !! abnormalKey p
     = None.
Proof.
  intros Hnone. split.
  - unfold pod.RemovePod, pod.AddPod. cbn [pod.aggregated]. rewrite Hnone.
    rewrite lookup_insert_eq. cbn [pod.Pods]. rewrite delete_singleton_eq, map_size_empty.
    cbn. apply delete_insert_id. exact Hnone.
  - unfold pod.RemovePod. cbn [pod.abnormalPods]. apply lookup_delete_eq.
Qed.

Lemma AddPod_RemovePod_witness :
  pod.aggregated (pod.RemovePod (pod.AddPod (pod.NewPodAggregator (5 * time.Minute)) 10
                                   (Some failedPod)) (Some failedPod)) = ∅.
Proof.
  apply (AddPod_RemovePod (pod.NewPodAggregator (5 * time.Minute)) 10 failedPod).
  reflexivity.
Defined.

(** [RemovePod] goes by the present phase of the pod: after a change of
    phase it leaves the pod in the bucket of the old phase. *)
Example RemovePod_after_phase_change :
  let a := pod.RemovePod
             (pod.AddPod (pod.AddPod (pod.NewPodAggregator (5 * time.Minute)) 10
                            (Some pendingPod)) 20 (Some runningPod))
             (Some runningPod) in
  pod.aggregated a !! "default/Running" = None
  /\ (pod.Pods <$> pod.aggregated a !! "default/Pending") = Some {["web-0" := true]}.
Proof. vm_compute. split; reflexivity. Qed.

(** ** The event aggregator *)

Lemma foldIn_lookup_other (m : gmap string event.AggregatedEvent) (now : Z)
  (e : corev1.Event.t) (k : string) :
  k <> event.eventAggregationKey e -> event.foldIn m now e !! k = m !! k.
Proof.
  intros Hne. destruct (foldIn_insert m now e) as [b ->].
  apply lookup_insert_ne. congruence.
Qed.

(** X13. When [AddEvent] returns, the bucket of the event exists, was last
    seen at the time of the call and lists the involved object if it has a
    name, whether or not a bucket was evicted to make room and even if the
    evicted bucket was the event's own; a [nil] event changes nothing. *)
Theorem AddEvent_records (order : list (string * event.AggregatedEvent))
  (a : event.EventAggregator) (now : Z) (e : corev1.Event.t) :
  (exists b,
      event.aggregated (event.AddEvent order a now (Some e)) !! event.eventAggregationKey e
      = Some b
      /\ event.LastSeen b = now
      /\ (corev1.Event.Name e <> "" ->
          event.UniqueObjects b !! corev1.Event.Name e = Some true))
  /\ event.AddEvent order a now None = a.
Proof.
  split; [| reflexivity].
  unfold event.AddEvent. cbn [event.aggregated].
  set (m := if Z.of_nat (size (event.aggregated a)) >=? event.maxEvents a
            then event.removeOldest order (event.aggregated a) else event.aggregated a).
  unfold event.foldIn.
  destruct (m !! event.eventAggregationKey e) as [agg|] eqn:Hagg;
    eexists; rewrite lookup_insert_eq; (split; [reflexivity |]); cbn;
    (split; [reflexivity |]); intros Hname;
    rewrite bool_decide_eq_true_2 by exact Hname.
  - apply lookup_insert_eq.
  - apply lookup_singleton_eq.
Qed.

Lemma AddEvent_records_witness :
  exists b,
    event.aggregated (event.AddEvent (map_to_list (event.aggregated fullAggregator))
                        fullAggregator 3 (Some backOff)) !! "default/BackOff/Pod" = Some b
    /\ event.LastSeen b = 3
    /\ event.UniqueObjects b !! "web-0" = Some true.
Proof.
  destruct (AddEvent_records (map_to_list (event.aggregated fullAggregator))
              fullAggregator 3 backOff) as [(b & Hb & Hseen & Hobject) _].
  exists b. split; [exact Hb |]. split; [exact Hseen |]. apply Hobject. discriminate.
Defined.

(** The oldest bucket is evicted first and then opened anew by the event:
    what it had counted is lost. *)
Example AddEvent_evicts_own_bucket :
  let a := event.AddEvent (map_to_list (event.aggregated fullAggregator))
             fullAggregator 3 (Some backOffAgain) in
  (event.Count <$> event.aggregated fullAggregator !! "default/BackOff/Pod") = Some 1
  /\ (event.LastSeen <$> event.aggregated fullAggregator !! "default/BackOff/Pod") = Some 1
  /\ corev1.Event.Count backOffAgain = 4
  /\ (event.Count <$> event.aggregated a !! "default/BackOff/Pod") = Some 4
  /\ size (event.aggregated a) = 2%nat.
Proof. vm_compute. repeat split; reflexivity. Qed.

Lemma AddEvent_room (order : list (string * event.AggregatedEvent)) (a : event.EventAggregator)
  (now : Z) (e : corev1.Event.t) :
  Z.of_nat (size (event.aggregated a)) < event.maxEvents a ->
  event.aggregated (event.AddEvent order a now (Some e))
  = event.foldIn (event.aggregated a) now e.
Proof.
  intros Hroom. unfold event.AddEvent. cbn [event.aggregated].
  destruct (Z.geb_spec (Z.of_nat (size (event.aggregated a))) (event.maxEvents a)); [lia |].
  reflexivity.
Qed.

(** X14. Below capacity [AddEvent] evicts nothing: every other bucket is
    left as it is. An event that falls into an existing bucket adds its count
    to the bucket's (in 64 bits) and leaves the bucket's namespace, reason,
    type, kind and first-seen time alone, so a bucket keeps the type of the
    event that opened it; its objects only grow. An event without a bucket
    opens one with its own count and first timestamp. *)
Theorem AddEvent_below_capacity (order : list (string * event.AggregatedEvent))
  (a : event.EventAggregator) (now : Z) (e : corev1.Event.t) :
  Z.of_nat (size (event.aggregated a)) < event.maxEvents a ->
  let a' := event.AddEvent order a now (Some e) in
  (forall k, k <> event.eventAggregationKey e ->
             event.aggregated a' !! k = event.aggregated a !! k)
  /\ (forall b, event.aggregated a !! event.eventAggregationKey e = Some b ->
        exists b', event.aggregated a' !! event.eventAggregationKey e = Some b'
          /\ event.Count b' = wrap64 (event.Count b + corev1.Event.Count e)
          /\ event.FirstSeen b' = event.FirstSeen b
          /\ event.Type_ b' = event.Type_ b
          /\ event.Namespace b' = event.Namespace b
          /\ event.Reason b' = event.Reason b
          /\ event.Kind b' = event.Kind b
          /\ (forall name, is_Some (event.UniqueObjects b !! name) ->
                           is_Some (event.UniqueObjects b' !! name)))
  /\ (event.aggregated a !! event.eventAggregationKey e = None ->
      exists b', event.aggregated a' !! event.eventAggregationKey e = Some b'
        /\ event.Count b' = corev1.Event.Count e
        /\ event.FirstSeen b' = corev1.Event.FirstTimestamp e
        /\ event.Type_ b' = corev1.Event.Type_ e
        /\ size (event.aggregated a') = S (size (event.aggregated a))).
Proof.
  intros Hroom a'. unfold a'. rewrite (AddEvent_room order a now e Hroom).
  split; [| split].
  - intros k Hne. apply foldIn_lookup_other. exact Hne.
  - intros b Hb. unfold event.foldIn. rewrite Hb. eexists.
    rewrite lookup_insert_eq. split; [reflexivity |]. cbn.
    repeat (split; [reflexivity |]).
    intros name Hname. destruct (bool_decide _); [| exact Hname].
    destruct (decide (corev1.Event.Name e = name)) as [<-|Hne].
    + rewrite lookup_insert_eq. eauto.
    + rewrite lookup_insert_ne by exact Hne. exact Hname.
  - intros Hnone. unfold event.foldIn. rewrite Hnone. eexists.
    rewrite lookup_insert_eq. split; [reflexivity |]. cbn.
    repeat (split; [reflexivity |]).
    apply map_size_insert_None. exact Hnone.
Qed.

Lemma AddEvent_below_capacity_witness :
  let a := event.AddEvent [] (event.NewEventAggregator (5 * time.Minute) 100) 0 (Some backOff) in
  exists b', event.aggregated (event.AddEvent (map_to_list (event.aggregated a)) a 60
                                 (Some backOffAgain)) !! "default/BackOff/Pod" = Some b'
             /\ event.Count b' = 5 /\ event.FirstSeen b' = 0 /\ event.Type_ b' = "Warning".
Proof.
  intros a.
  assert (Hroom : Z.of_nat (size (event.aggregated a)) < event.maxEvents a) by reflexivity.
  pose proof (AddEvent_below_capacity (map_to_list (event.aggregated a)) a 60 backOffAgain Hroom)
    as Hadd.
  cbv zeta in Hadd. destruct Hadd as (_ & Hexisting & _).
  destruct (Hexisting backOffBucket eq_refl)
    as (b' & Hb' & Hcount & Hfirst & Htype & _).
  exists b'. split; [exact Hb' |]. split; [| split].
  - rewrite Hcount. reflexivity.
  - rewrite Hfirst. reflexivity.
  - rewrite Htype. reflexivity.
Defined.

Lemma removeOldest_lookup (order : list (string * event.AggregatedEvent))
  (m : gmap string event.AggregatedEvent) (k : string) (b : event.AggregatedEvent) :
  event.removeOldest order m !! k = Some b -> m !! k = Some b.
Proof.
  unfold event.removeOldest. destruct (fold_left _ _ _) as [ok ot].
  destruct (bool_decide _); [| tauto].
  intros Hk. apply lookup_delete_Some in Hk as [_ Hk]. exact Hk.
Qed.

Lemma foldIn_buckets_ok (m : gmap string event.AggregatedEvent) (now : Z) (e : corev1.Event.t) :
  (forall k b, m !! k = Some b -> event_bucket_ok k b) ->
  forall k b, event.foldIn m now e !! k = Some b -> event_bucket_ok k b.
Proof.
  intros Hm k b. unfold event.foldIn.
  destruct (m !! event.eventAggregationKey e) as [agg|] eqn:Hagg;
    (destruct (decide (event.eventAggregationKey e = k)) as [<-|Hne];
     [rewrite lookup_insert_eq; intros [= <-]
     | rewrite lookup_insert_ne by exact Hne; apply Hm]).
  - destruct (Hm _ _ Hagg) as [Hkey Hnames]. split; [exact Hkey |]. cbn.
    destruct (bool_decide_reflect (corev1.Event.Name e <> "")) as [Hname|_]; [| exact Hnames].
    rewrite lookup_insert_ne by exact Hname. exact Hnames.
  - split; [reflexivity |]. cbn.
    destruct (bool_decide_reflect (corev1.Event.Name e <> "")) as [Hname|_].
    + apply lookup_singleton_ne. exact Hname.
    + apply lookup_empty.
Qed.

Lemma event_buckets_step (a a' : event.EventAggregator) :
  event.step a a' -> event_buckets_ok a -> event_buckets_ok a'.
Proof.
  intros Hstep Hok. destruct Hstep as [order now [e|] _ | now]; [| exact Hok |].
  - unfold event_buckets_ok, event.AddEvent. cbn [event.aggregated].
    apply foldIn_buckets_ok. intros k b Hk. apply Hok.
    destruct (_ >=? _); [| exact Hk]. exact (removeOldest_lookup _ _ _ _ Hk).
  - intros k b Hk. unfold event.cleanup in Hk. cbn [event.aggregated] in Hk.
    apply map_lookup_filter_Some in Hk as [Hk _]. exact (Hok _ _ Hk).
Qed.

(** X15. After any sequence of [AddEvent] calls and cleanup ticks on a new
    aggregator, every bucket is filed under the key made of its own
    namespace, reason and kind, and no bucket lists the empty object name. *)
Theorem event_buckets_invariant (windowSize maxEvents : Z) (a : event.EventAggregator) :
  rtc event.step (event.NewEventAggregator windowSize maxEvents) a -> event_buckets_ok a.
Proof.
  intros Hreach. apply rtc_nsteps in Hreach as [n Hn]. revert a Hn.
  induction n as [|n IH]; intros a Hn.
  - inversion Hn; subst. intros k b Hk. cbn in Hk. rewrite lookup_empty in Hk. discriminate.
  - apply nsteps_inv_r in Hn as (mid & Hmid & Hstep).
    exact (event_buckets_step _ _ Hstep (IH _ Hmid)).
Qed.

Lemma event_buckets_invariant_witness : event_buckets_ok fullAggregator.
Proof.
  exact (event_buckets_invariant _ _ fullAggregator fullAggregator_reachable).
Defined.

Lemma removeOldest_empty (order : list (string * event.AggregatedEvent)) :
  order ≡ₚ map_to_list (∅ : gmap string event.AggregatedEvent) ->
  event.removeOldest order ∅ = ∅.
Proof.
  rewrite map_to_list_empty. intros Hperm. apply Permutation_nil_r in Hperm. subst order.
  reflexivity.
Qed.

(** X16. With [maxEvents <= 0] every [AddEvent] first evicts: after any
    sequence of calls the aggregator holds at most one bucket, the one of the
    last event. *)
Theorem AddEvent_without_capacity (windowSize maxEvents : Z) (a : event.EventAggregator) :
  maxEvents <= 0 ->
  rtc event.step (event.NewEventAggregator windowSize maxEvents) a ->
  (size (event.aggregated a) <= 1)%nat
  /\ forall order now e,
      order ≡ₚ map_to_list (event.aggregated a) ->
      exists b, event.aggregated (event.AddEvent order a now (Some e))
                = {[event.eventAggregationKey e := b]}.
Proof.
  intros Hmax Hreach.
  assert (Hinv : event.maxEvents a = maxEvents
                 /\ keys_nonempty (event.aggregated a)
                 /\ (size (event.aggregated a) <= 1)%nat).
  { apply rtc_nsteps in Hreach as [n Hn]. revert a Hn.
    induction n as [|n IH]; intros a Hn.
    - inversion Hn; subst. split; [reflexivity |]. split.
      + intros k [b Hk]. cbn in Hk. rewrite lookup_empty in Hk. discriminate.
      + cbn. rewrite map_size_empty. lia.
    - apply nsteps_inv_r in Hn as (mid & Hmid & Hstep).
      destruct (IH _ Hmid) as (Hm & Hkeys & Hsize).
      split; [rewrite (event_step_maxEvents _ _ Hstep); exact Hm |].
      destruct Hstep as [order now [e|] Hperm | now].
      + unfold event.AddEvent. cbn [event.aggregated].
        destruct (Z.geb_spec (Z.of_nat (size (event.aggregated mid))) (event.maxEvents mid));
          [| lia].
        destruct (decide (event.aggregated mid = ∅)) as [Hempty|Hne].
        * rewrite Hempty in *. rewrite (removeOldest_empty order Hperm). split.
          -- apply foldIn_keys. intros k [b Hk]. rewrite lookup_empty in Hk. discriminate.
          -- pose proof (foldIn_size ∅ now e) as Hle. rewrite map_size_empty in Hle. exact Hle.
        * destruct (removeOldest_spec order _ Hperm Hkeys Hne) as (k & b & Hk & _ & ->).
          split.
          -- apply foldIn_keys. intros k' [b' Hk'].
             apply lookup_delete_Some in Hk' as [_ Hk']. apply Hkeys. eauto.
          -- pose proof (foldIn_size (delete k (event.aggregated mid)) now e) as Hle.
             rewrite map_size_delete_Some in Hle by eauto. lia.
      + split; assumption.
      + unfold event.cleanup. cbn [event.aggregated]. split.
        * intros k [b Hk]. apply map_lookup_filter_Some in Hk as [Hk _]. apply Hkeys. eauto.
        * etransitivity; [apply map_size_filter | exact Hsize]. }
  destruct Hinv as (Hm & Hkeys & Hsize). split; [exact Hsize |].
  intros order now e Hperm. unfold event.AddEvent. cbn [event.aggregated].
  destruct (Z.geb_spec (Z.of_nat (size (event.aggregated a))) (event.maxEvents a)); [| lia].
  assert (Hgone : event.removeOldest order (event.aggregated a) = ∅).
  { destruct (decide (event.aggregated a = ∅)) as [Hempty|Hne].
    - rewrite Hempty in *. exact (removeOldest_empty order Hperm).
    - destruct (removeOldest_spec order _ Hperm Hkeys Hne) as (k & b & Hk & _ & ->).
      apply map_size_empty_inv. rewrite map_size_delete_Some by eauto.
      assert (size (event.aggregated a) <> 0)%nat by (apply map_size_non_empty_iff; exact Hne).
      lia. }
  rewrite Hgone. destruct (foldIn_insert ∅ now e) as [b ->]. exists b. reflexivity.
Qed.

Lemma AddEvent_without_capacity_witness :
  let a := event.AddEvent [] (event.NewEventAggregator (5 * time.Minute) 0) 1 (Some backOff) in
  (size (event.aggregated a) <= 1)%nat
  /\ exists b, event.aggregated (event.AddEvent (map_to_list (event.aggregated a)) a 2
                                   (Some backOffOther))
               = {["default/Failed/Pod" := b]}.
Proof.
  intros a.
  assert (Hmax : 0 <= 0) by lia.
  assert (Hreach : rtc event.step (event.NewEventAggregator (5 * time.Minute) 0) a).
  { eapply rtc_l; [apply (event.step_AddEvent _ [] 1 (Some backOff)); reflexivity |].
    apply rtc_refl. }
  destruct (AddEvent_without_capacity _ 0 a Hmax Hreach) as [Hsize Hnext].
  split; [exact Hsize |].
  exact (Hnext (map_to_list (event.aggregated a)) 2 backOffOther (reflexivity _)).
Defined.

(** ** Cleanups compose *)

Lemma pod_cleanup_twice (a : pod.PodAggregator) (t1 t2 : Z) :
  pod.cleanup (pod.cleanup a t1) t2 = pod.cleanup a (Z.max t1 t2).
Proof.
  unfold pod.cleanup at 1 3. cbn [pod.windowSize pod.abnormalPods pod.aggregated]. f_equal.
  unfold pod.cleanup. cbn [pod.aggregated].
  change (pod.threshold {| pod.windowSize := pod.windowSize a;
                           pod.aggregated := _; pod.abnormalPods := _ |} t2)
    with (pod.threshold a t2).
  apply map_eq. intros k. apply option_eq. intros b.
  rewrite !map_lookup_filter_Some. cbn [snd].
  unfold pod.threshold, time.Before, time.Add. rewrite !Z.ltb_ge. split.
  - intros [[Hk H1] H2]. split; [exact Hk | lia].
  - intros [Hk Hmax]. repeat split; [exact Hk | lia | lia].
Qed.

Lemma event_cleanup_twice (a : event.EventAggregator) (t1 t2 : Z) :
  event.cleanup (event.cleanup a t1) t2 = event.cleanup a (Z.max t1 t2).
Proof.
  unfold event.cleanup at 1 3. cbn [event.windowSize event.maxEvents event.aggregated]. f_equal.
  unfold event.cleanup. cbn [event.aggregated].
  apply map_eq. intros k. apply option_eq. intros b.
  rewrite !map_lookup_filter_Some. cbn [snd].
  unfold event.threshold, time.Before, time.Add. rewrite !Z.ltb_ge. split.
  - intros [[Hk H1] H2]. split; [exact Hk | lia].
  - intros [Hk Hmax]. repeat split; [exact Hk | lia | lia].
Qed.

(** X17. For both aggregators, two cleanups in a row, in either order of
    their times, leave what the one cleanup at the later time leaves: a
    cleanup repeated at the same time changes nothing more, and a late tick
    makes up for a missed one. A cleanup adds no bucket, alters none that it
    keeps, and leaves the abnormal-pod tracking of the pod aggregator as it
    is. *)
Theorem cleanup_composes :
  (forall (a : pod.PodAggregator) (t1 t2 : Z),
      pod.cleanup (pod.cleanup a t1) t2 = pod.cleanup a (Z.max t1 t2)
      /\ pod.cleanup (pod.cleanup a t1) t1 = pod.cleanup a t1
      /\ pod.abnormalPods (pod.cleanup a t1) = pod.abnormalPods a
      /\ (forall k b, pod.aggregated (pod.cleanup a t1) !! k = Some b ->
                      pod.aggregated a !! k = Some b))
  /\ (forall (a : event.EventAggregator) (t1 t2 : Z),
        event.cleanup (event.cleanup a t1) t2 = event.cleanup a (Z.max t1 t2)
        /\ event.cleanup (event.cleanup a t1) t1 = event.cleanup a t1
        /\ (forall k b, event.aggregated (event.cleanup a t1) !! k = Some b ->
                        event.aggregated a !! k = Some b)).
Proof.
  split.
  - intros a t1 t2. split; [apply pod_cleanup_twice |].
    split; [rewrite pod_cleanup_twice, Z.max_id; reflexivity |].
    split; [reflexivity |].
    intros k b Hk. unfold pod.cleanup in Hk. cbn [pod.aggregated] in Hk.
    apply map_lookup_filter_Some in Hk as [Hk _]. exact Hk.
  - intros a t1 t2. split; [apply event_cleanup_twice |].
    split; [rewrite event_cleanup_twice, Z.max_id; reflexivity |].
    intros k b Hk. unfold event.cleanup in Hk. cbn [event.aggregated] in Hk.
    apply map_lookup_filter_Some in Hk as [Hk _]. exact Hk.
Qed.

Lemma cleanup_composes_witness :
  let pa := pod.AddPod (pod.NewPodAggregator (5 * time.Minute)) 0 (Some failedPod) in
  pod.aggregated pa !! "default/Failed" = Some failedBucket.
Proof.
  intros pa. destruct cleanup_composes as [Hpod _].
  destruct (Hpod pa (450 * time.Second) 0) as (_ & _ & _ & Hkept).
  apply Hkept. reflexivity.
Defined.

(** ** Extraction at a path that resolves *)

(** X18. At a path that resolves to a value, the string extractor returns
    the value if it is a string and the empty string for every other kind (a
    number or a boolean is not formatted); the float extractor converts the
    value with [toFloat64]; and, the value being of JSON kinds, the map and
    slice extractors return the map or slice found and [nil] for every other
    kind, while a map that holds a value outside the JSON kinds makes the map
    extractor panic. *)
Theorem extract_resolved {strconv : Strconv} (obj : Unstructured) (path : string) (r : any) :
  at_path obj path r ->
  extractFieldString obj path = match r with AString s => s | _ => "" end
  /\ extractFieldFloat obj path = toFloat64 r
  /\ (unstructured.jsonCopyable r = true ->
      extractFieldMap obj path = Ret (match r with AMap m => Some m | _ => None end)
      /\ extractFieldSlice obj path = Ret (match r with ASlice l => Some l | _ => None end))
  /\ (unstructured.jsonCopyable r = false ->
      forall m, r = AMap m -> extractFieldMap obj path = Panic "cannot deep copy").
Proof.
  intros Hat. split; [apply extractFieldString_at; exact Hat |].
  split; [apply extractFieldFloat_at; exact Hat |]. split.
  - intros Hjson. split; [apply extractFieldMap_at | apply extractFieldSlice_at]; assumption.
  - intros Hjson m ->. destruct Hat as [Hpath Hres]. unfold extractFieldMap.
    destruct (decide (path = "")) as [Hempty|_]; [contradiction |].
    unfold unstructured.NestedMap, unstructured.NestedFieldNoCopy.
    rewrite (walk_resolves _ _ _ Hres). cbn [negb orb failed].
    unfold unstructured.DeepCopyJSONValue. rewrite Hjson. reflexivity.
Qed.

Lemma extract_resolved_witness :
  extractFieldString componentsResource "status.components.web.phase" = "Running"
  /\ extractFieldString componentsResource "status.components.web.replicas" = ""
  /\ extractFieldFloat (strconv := exampleParseFloat) componentsResource
       "status.components.web.replicas" = 3%float.
Proof.
  assert (Hphase : at_path componentsResource "status.components.web.phase"
                     (AString "Running")).
  { split; [discriminate |]. apply walk_found with (e := NoError). reflexivity. }
  assert (Hreplicas : at_path componentsResource "status.components.web.replicas" (AInt64 3)).
  { split; [discriminate |]. apply walk_found with (e := NoError). reflexivity. }
  destruct (extract_resolved (strconv := exampleParseFloat) _ _ _ Hphase) as (Hs1 & _).
  destruct (extract_resolved (strconv := exampleParseFloat) _ _ _ Hreplicas) as (Hs2 & Hf2 & _).
  split; [exact Hs1 |]. split; [exact Hs2 |]. rewrite Hf2. reflexivity.
Defined.

(** ** Label values line up with label names *)

Lemma sorted_values_lookup (m : gmap string string) (i : nat) (name : string) :
  getSortedKeys m !! i = Some name ->
  exists path, m !! name = Some path /\ getSortedValues m !! i = Some path.
Proof.
  intros Hi.
  assert (Hk : is_Some (m !! name)).
  { apply getSortedKeys_elem. eapply list_elem_of_lookup_2. exact Hi. }
  destruct Hk as [v Hv]. exists v. split; [exact Hv |].
  unfold getSortedValues. change (map ?f ?l) with (f <$> l).
  rewrite list_lookup_fmap, Hi. cbn. rewrite Hv. reflexivity.
Qed.

(** X19. The label values of an info metric stand in the order of the
    label names of its descriptor: at each position of the descriptor's label
    names, first the common ones and then the metric's own, the tuple holds
    the string extracted at the path that the configuration gives for the
    label name at that position. *)
Theorem info_labels_line_up (c : ConfigurableCollector) (d : prometheus.Desc)
  (obj : Unstructured) (cfg : MetricConfig.t) (names : list string) :
  MetricConfig.Type_ cfg = "info" ->
  labelNamesFor (getCommonLabelNames (crdConfig c)) cfg = Some names ->
  exists metric,
    collectInfoMetric d obj cfg (extractCommonLabels c obj) = [metric]
    /\ prometheus.value metric = 1%float
    /\ length (prometheus.labelValues metric) = length names
    /\ forall (i : nat) name,
        names !! i = Some name ->
        exists path,
          prometheus.labelValues metric !! i = Some (extractFieldString obj path)
          /\ if decide (i < length (getCommonLabelNames (crdConfig c)))%nat
             then CRDConfig.CommonLabels (crdConfig c) !! name = Some path
             else MetricConfig.Labels cfg !! name = Some path.
Proof.
  intros Hty Hnames. unfold labelNamesFor in Hnames. rewrite Hty in Hnames.
  cbn in Hnames. injection Hnames as <-.
  eexists. split; [reflexivity |]. split; [reflexivity |]. cbn [prometheus.labelValues
    prometheus.MustNewConstMetric].
  assert (Hlen : length (extractCommonLabels c obj)
                 = length (getCommonLabelNames (crdConfig c)))
    by apply extractCommonLabels_length.
  split.
  { unfold getSortedValues. rewrite !length_app, !length_map, Hlen. reflexivity. }
  intros i name Hi.
  destruct (decide (i < length (getCommonLabelNames (crdConfig c)))%nat) as [Hlt|Hge].
  - rewrite lookup_app_l in Hi by exact Hlt.
    destruct (sorted_values_lookup _ _ _ Hi) as (path & Hpath & Hvalue).
    exists path. split; [| exact Hpath].
    rewrite lookup_app_l by (rewrite Hlen; exact Hlt).
    unfold extractCommonLabels. change (map ?f ?l) with (f <$> l).
    rewrite list_lookup_fmap, Hvalue. reflexivity.
  - rewrite lookup_app_r in Hi by lia.
    destruct (sorted_values_lookup _ _ _ Hi) as (path & Hpath & Hvalue).
    exists path. split; [| exact Hpath].
    rewrite lookup_app_r by (rewrite Hlen; lia). rewrite Hlen.
    change (map ?f ?l) with (f <$> l).
    rewrite list_lookup_fmap, Hvalue. reflexivity.
Qed.

Lemma info_labels_line_up_witness :
  exists metric,
    collectInfoMetric (prometheus.NewDesc "sealos_test_crd_info" "Resource info"
                         ["name"; "namespace"; "phase"])
      (resourceWithPhase "Running") infoMetric
      (extractCommonLabels threeMetricsCollector (resourceWithPhase "Running"))
    = [metric]
    /\ prometheus.labelValues metric !! 0%nat = Some "db-1"
    /\ prometheus.labelValues metric !! 2%nat = Some "Running".
Proof.
  destruct (info_labels_line_up threeMetricsCollector
              (prometheus.NewDesc "sealos_test_crd_info" "Resource info"
                 ["name"; "namespace"; "phase"])
              (resourceWithPhase "Running") infoMetric ["name"; "namespace"; "phase"]
              eq_refl eq_refl) as (metric & Hmetric & _ & _ & Hall).
  exists metric. split; [exact Hmetric |].
  destruct (Hall 0%nat "name" eq_refl) as (path0 & Hvalue0 & Hpath0).
  destruct (Hall 2%nat "phase" eq_refl) as (path2 & Hvalue2 & Hpath2).
  vm_compute in Hpath0. injection Hpath0 as <-.
  vm_compute in Hpath2. injection Hpath2 as <-.
  split; [rewrite Hvalue0 | rewrite Hvalue2]; reflexivity.
Defined.
